(** * py_obs.project: maintainer search, meta upload, deletion, file listing

    A shallow embedding of [src/py_obs/project.py].  Python values are
    modelled by records, [None]-able values by [option], the truth
    protocol ([if x:], [not x], [x and y]) by the class [Truthy], and the
    coroutines by a state-and-error monad [Async] that threads the log of
    requests handed to the transport. *)

From Stdlib Require Import String ZArith List.
From stdpp Require Import base option list gmap strings sets.

Local Open Scope Z_scope.

(** ** Exceptions *)

(** [AssertionError] is raised by the [assert] statements of the module;
    [TransportError] is what [Osc.api_request] raises; [ParseError] is what
    [from_response] raises on a malformed document. *)
Inductive Exception :=
  | AssertionError (msg : string)
  | TransportError (descr : string)
  | ParseError (descr : string).

(** ** Python's truth protocol *)

Class Truthy (A : Type) := truthy : A → bool.
Global Hint Mode Truthy ! : typeclass_instances.

Global Instance string_truthy : Truthy string :=
  λ s, match s with EmptyString => false | String _ _ => true end.
Global Instance Z_truthy : Truthy Z := λ n, negb (n =? 0).
Global Instance list_truthy {A} : Truthy (list A) :=
  λ l, match l with [] => false | _ :: _ => true end.
Global Instance option_truthy {A} `{Truthy A} : Truthy (option A) :=
  λ o, match o with None => false | Some x => truthy x end.

(** [x if x else None]: the value of an optional argument when it passes an
    [if x:] test. *)
Definition truthy_value {A} `{Truthy A} (o : option A) : option A :=
  match o with
  | Some x => if truthy x then Some x else None
  | None => None
  end.

(** ** xml.etree.ElementTree.Element *)

#[warnings="-register-all"]
Inductive Element := mkElement {
  tag : string;
  attrib : gmap string string;
  text : option string;
  children : list Element
}.

(** [ET.Element(tag)] *)
Definition ET_Element (tag : string) : Element := mkElement tag ∅ None [].

(** [elem.append(child)] *)
Definition append (elem child : Element) : Element :=
  mkElement (tag elem) (attrib elem) (text elem) (children elem ++ [child]).

(** An [Element] is true exactly when it has children ([__len__]). *)
Global Instance Element_truthy : Truthy Element := λ e, truthy (children e).

(** ** The transport *)

Record Request := mkRequest {
  route : string;
  method : option string;
  params : option (gmap string string);
  payload : option string
}.

(** Modelled from the spec: the response of [Osc.api_request] is "either raw
    bytes or pre-parsed structured content depending on call site". *)
Inductive Response :=
  | RawBytes (body : string)
  | Parsed (doc : Element).

(** What the program asks of its collaborators, in the order it asks. *)
Inductive Event :=
  | ApiRequest (req : Request)
  | FetchGroup (group_name : string).

Definition Trace := list Event.

(** ** py_obs.person *)

(** Modelled from the spec: [PersonRole] (py_obs.person) is a role name; it
    is joined with [","] as a string. *)
Definition PersonRole := string.

(** Modelled from the spec: [Person] (py_obs.person) is "a user id plus
    role". *)
Module Person.
Record t := mk { userid : string; role : PersonRole }.
End Person.

(** Modelled from the spec: [Person2] (py_obs.person) is a person of an
    owner record, an "identity reference" of "a user id plus role"; a
    person of the service's answer comes with the role, if any, that the
    answer gives.  A frozen dataclass compares and hashes by all its
    fields. *)
Module Person2.
Record t := mk { userid : string; role : option PersonRole }.
End Person2.

Global Instance Person2_eq_dec : EqDecision Person2.t.
Proof. solve_decision. Defined.
Global Instance Person2_countable : Countable Person2.t :=
  inj_countable' (λ p, (Person2.userid p, Person2.role p))
    (λ ur, Person2.mk ur.1 ur.2)
    (λ p, match p with Person2.mk _ _ => eq_refl end).

(** Modelled from the spec: the source builds the persons of a group as
    [Person2(userid)], which leaves the role at the default of the class;
    the class is not under src/, so its default is a parameter. *)
Class Person2Default := Person2_default_role : option PersonRole.

(** [Person2(userid)] *)
Definition Person2_of_userid `{Person2Default} (userid : string) : Person2.t :=
  Person2.mk userid Person2_default_role.

(** Modelled from the spec: a group reference of an owner record; the source
    reads its [name]. *)
Module Group.
Record t := mk { name : string }.
End Group.

(** Modelled from the spec: an owner record carries "an optional project
    name, an optional package name, a list of directly-named persons, and a
    list of group references". *)
Module Owner.
Record t := mk {
    project : option string;
    package : option string;
    person : list Person2.t;
    group : list Group.t
  }.
End Owner.

Module OwnerCollection.
Record t := mk { owner : list Owner.t }.
End OwnerCollection.

(** Modelled from the spec: "a group has a list of maintainer persons and a
    list of plain member persons"; the source reads [grp.maintainer] and
    [grp.person.person]. *)
Module PersonList.
Record t := mk { person : list Person.t }.
End PersonList.

Module UserGroup.
Record t := mk { maintainer : list Person.t; person : PersonList.t }.
End UserGroup.

(** Modelled from the spec: the transport object.  [api_response] is the
    outcome of a request given what has been asked so far ([inl] a failure
    description); [group_response] is the outcome of [fetch_group], which
    "issues one request to fetch that group's full membership". *)
Record Osc := mkOsc {
  api_response : Trace → Request → string + Response;
  group_response : Trace → string → Exception + UserGroup.t
}.

(** ** Records of project.py *)

Module PathEntry.
Record t := mk { project : string; repository : string }.
End PathEntry.

Module Repository.
Record t := mk {
    name : string;
    path : option (list PathEntry.t);
    arch : option (list string)
  }.
End Repository.

Module Project.
Record t := mk {
    name : string;
    title : string;
    description : string;
    person : option (list Person.t);
    repository : option (list Repository.t)
  }.
End Project.

Module Package.
Record t := mk {
    name : string;
    title : string;
    description : string;
    scmsync : option string
  }.

(** The [meta] property. *)
Definition meta (self : t) : Element :=
    let pkg_conf := mkElement "package" (<["name" := name self]> ∅) None [] in
    let title := mkElement "title" ∅ (Some (title self)) [] in
    let descr := mkElement "description" ∅ (Some (description self)) [] in
    let pkg_conf := append pkg_conf title in
    let pkg_conf := append pkg_conf descr in
    match truthy_value (scmsync self) with
    | Some url => append pkg_conf (mkElement "scmsync" ∅ (Some url) [])
    | None => pkg_conf
    end.
End Package.

(** Instances of a dataclass without [__bool__] or [__len__] are true. *)
Global Instance Project_truthy : Truthy Project.t := λ _, true.
Global Instance Package_truthy : Truthy Package.t := λ _, true.

Module PackageMaintainers.
Record t := mk { package : list Person2.t; project : list Person2.t }.
End PackageMaintainers.

Module _Directory.
Module Entry.
Record t := mk {
      name : option string;
      md5 : option string;
      size : option Z;
      mtime : option Z;
      originproject : option string;
      available : option bool;
      recommended : option bool;
      hash : option string
    }.
End Entry.

Module LinkInfo.
Record t := mk {
      project : option string;
      package : option string;
      srcmd5 : option string;
      rev : option string;
      baserev : option string;
      xsrcmd5 : option string;
      lsrcmd5 : option string;
      error : option string
    }.
End LinkInfo.

Module ServiceInfo.
Record t := mk {
      code : option string;
      error : option string;
      lsrcmd5 : option string;
      xsrcmd5 : option string
    }.
End ServiceInfo.

Record t := mk {
    name : option string;
    rev : option string;
    vrev : option string;
    srcmd5 : option string;
    count : option Z;
    entry : list Entry.t;
    linkinfo : list LinkInfo.t;
    serviceinfo : list ServiceInfo.t
  }.
End _Directory.

Module File.
Record t := mk {
    name : string;
    md5_sum : string;
    size : Z;
    mtime : Z
  }.
End File.

(** Modelled from the spec: [MetaMixin] (py_obs.xml_factory) gives a record
    type [from_response], which parses a response or fails, and [meta],
    its document. *)
Class MetaMixin (A : Type) := {
  from_response : Response → Exception + A;
  meta : A → Element
}.

(** ** Coroutines *)

(** A coroutine run to completion: from the log so far to the log after,
    with an exception or a value. *)
Definition Async (A : Type) : Type := Trace → Trace * (Exception + A).

Definition ret {A} (a : A) : Async A := λ t, (t, inr a).
Definition raise {A} (e : Exception) : Async A := λ t, (t, inl e).
Definition bind {A B} (m : Async A) (k : A → Async B) : Async B :=
  λ t, match m t with
       | (t', inl e) => (t', inl e)
       | (t', inr a) => k a t'
       end.
(** [await] of something that asks nothing of the transport. *)
Definition lift {A} (r : Exception + A) : Async A := λ t, (t, r).

Global Instance Async_ret : MRet Async := @ret.
Global Instance Async_bind : MBind Async := λ A B k m, bind m k.

(** ** The transport's coroutines *)

(** [await osc.api_request(route, method=..., params=..., payload=...)]:
    the request is handed to the transport, whose failure is raised. *)
Definition api_request (osc : Osc) (req : Request) : Async Response :=
  λ t, (t ++ [ApiRequest req],
        match api_response osc t req with
        | inl descr => inl (TransportError descr)
        | inr resp => inr resp
        end).

(** Modelled from the spec: [fetch_group] (py_obs.person) "issues one request
    to fetch that group's full membership" and fails when the group cannot
    be fetched. *)
Definition fetch_group (osc : Osc) (group_name : string) : Async UserGroup.t :=
  λ t, (t ++ [FetchGroup group_name], group_response osc t group_name).

(** [asyncio.gather] of the tasks: every task is started, in the order given;
    the results come in that order, and a failed task fails the wait.  With
    several failed tasks the one that fails first in time is raised, which
    the log does not tell: the first in task order stands for it. *)
Fixpoint run_all {A} (tasks : list (Async A)) (t : Trace)
  : Trace * list (Exception + A) :=
  match tasks with
  | [] => (t, [])
  | task :: tasks =>
      let '(t1, r) := task t in
      let '(t2, rs) := run_all tasks t1 in
      (t2, r :: rs)
  end.

Fixpoint join {A} (rs : list (Exception + A)) : Exception + list A :=
  match rs with
  | [] => inr []
  | inl e :: _ => inl e
  | inr a :: rs =>
      match join rs with
      | inl e => inl e
      | inr l => inr (a :: l)
      end
  end.

Definition gather {A} (tasks : list (Async A)) : Async (list A) :=
  λ t, let '(t', rs) := run_all tasks t in (t', join rs).

(** [list(set(l))], in the order the set happens to iterate. *)
Definition list_set (l : list Person2.t) : list Person2.t :=
  elements (list_to_set l : gset Person2.t).

(** [prj.name if isinstance(prj, Project) else prj] *)
Definition prj_name_of (prj : Project.t + string) : string :=
  match prj with inl p => Project.name p | inr s => s end.

(** [pkg.name if isinstance(pkg, Package) else pkg] *)
Definition pkg_name_of (pkg : Package.t + string) : string :=
  match pkg with inl p => Package.name p | inr s => s end.

Global Instance sum_truthy {A B} `{Truthy A, Truthy B} : Truthy (A + B) :=
  λ x, match x with inl a => truthy a | inr b => truthy b end.

Definition _prj_and_pkg_name (prj : Project.t + string) (pkg : Package.t + string)
  : string * string :=
  (prj_name_of prj, pkg_name_of pkg).

(** ** project.py *)

Section project.

Context {default_role : Person2Default}
        {OwnerCollection_MetaMixin : MetaMixin OwnerCollection.t}
        {Directory_MetaMixin : MetaMixin _Directory.t}
        {Project_MetaMixin : MetaMixin Project.t}.

(** [ET.tostring] *)
Variable ET_tostring : Element → string.

(** The closure [fetch_group_members] of the loop body, for its [owner]. *)
Definition fetch_group_members (osc : Osc) (groups_to_ignore : list string)
    (owner : Owner.t) : Async (list Person2.t) :=
  let tasks :=
    (λ grp, fetch_group osc (Group.name grp)) <$>
      filter (λ grp, Group.name grp ∉ groups_to_ignore) (Owner.group owner) in
  res ← gather tasks;
  mret (flat_map (λ grp, (λ maint, Person2_of_userid (Person.userid maint)) <$>
                           UserGroup.maintainer grp) res
        ++ flat_map (λ grp, (λ pers, Person2_of_userid (Person.userid pers)) <$>
                              PersonList.person (UserGroup.person grp)) res).

(** One turn of [for owner in owners.owner], on the two lists. *)
Definition owner_step (osc : Osc) (pkg_name : string)
    (groups_to_ignore : list string)
    (acc : list Person2.t * list Person2.t) (owner : Owner.t)
  : Async (list Person2.t * list Person2.t) :=
  let '(pkg_maintainers, prj_maintainers) := acc in
  pkg_maintainers ←
    (if truthy (Owner.project owner)
        && bool_decide (Owner.package owner = Some pkg_name)
     then members ← fetch_group_members osc groups_to_ignore owner;
          mret (pkg_maintainers ++ Owner.person owner ++ members)
     else mret pkg_maintainers);
  prj_maintainers ←
    (if truthy (Owner.project owner) && negb (truthy (Owner.package owner))
     then members ← fetch_group_members osc groups_to_ignore owner;
          mret (prj_maintainers ++ Owner.person owner ++ members)
     else mret prj_maintainers);
  mret (pkg_maintainers, prj_maintainers).

Fixpoint owners_loop (osc : Osc) (pkg_name : string)
    (groups_to_ignore : list string) (owners : list Owner.t)
    (acc : list Person2.t * list Person2.t)
  : Async (list Person2.t * list Person2.t) :=
  match owners with
  | [] => mret acc
  | owner :: owners =>
      acc ← owner_step osc pkg_name groups_to_ignore acc owner;
      owners_loop osc pkg_name groups_to_ignore owners acc
  end.

(** [if not pkg_name: assert pkg; pkg_name = pkg.name] *)
Definition resolve_pkg_name (pkg : option Package.t) (pkg_name : option string)
  : Async string :=
  match truthy_value pkg_name with
  | Some pkg_name => mret pkg_name
  | None =>
      match truthy_value pkg with
      | Some pkg => mret (Package.name pkg)
      | None => raise (AssertionError "")
      end
  end.

(** [params = {"package": pkg_name}; if roles: params["filter"] = ...] *)
Definition search_params (pkg_name : string) (roles : option (list PersonRole))
  : gmap string string :=
  let params := {[ "package" := pkg_name ]} in
  match truthy_value roles with
  | Some roles => <["filter" := String.concat "," roles]> params
  | None => params
  end.

Definition search_for_maintainers (osc : Osc) (pkg : option Package.t)
    (pkg_name : option string) (roles : option (list PersonRole))
    (groups_to_ignore : option (list string)) : Async PackageMaintainers.t :=
  pkg_name ← resolve_pkg_name pkg pkg_name;
  let groups_to_ignore := default [] groups_to_ignore in
  let params := search_params pkg_name roles in
  resp ← api_request osc
           (mkRequest "/search/owner" (Some "GET") (Some params) None);
  owners ← lift (from_response resp);
  '(pkg_maintainers, prj_maintainers) ←
     owners_loop osc pkg_name groups_to_ignore (OwnerCollection.owner owners)
       ([], []);
  mret (PackageMaintainers.mk (list_set pkg_maintainers)
                              (list_set prj_maintainers)).

Definition send_meta (osc : Osc) (prj : option Project.t)
    (prj_name : option string) (prj_meta : option Element)
    (pkg : option Package.t) (pkg_name : option string)
    (pkg_meta : option Element) : Async unit :=
  let route := "/source/" in
  '(route, doc) ←
     match truthy_value prj, truthy_value pkg with
     | Some prj, Some pkg =>
         mret (route +:+ Project.name prj +:+ "/" +:+ Package.name pkg,
               Package.meta pkg)
     | Some prj, None => mret (route +:+ Project.name prj, meta prj)
     | None, _ =>
         match truthy_value prj_name, truthy_value pkg_name,
               truthy_value pkg_meta with
         | Some prj_name, Some pkg_name, Some pkg_meta =>
             mret (route +:+ prj_name +:+ "/" +:+ pkg_name, pkg_meta)
         | _, _, _ =>
             match truthy_value prj_name, truthy_value prj_meta with
             | Some prj_name, Some prj_meta =>
                 mret (route +:+ prj_name, prj_meta)
             | _, _ => raise (AssertionError "Invalid parameter combination")
             end
         end
     end;
  let route := route +:+ "/_meta" in
  _ ← api_request osc
        (mkRequest route (Some "PUT") None (Some (ET_tostring doc)));
  mret ().

Definition delete (osc : Osc) (prj : Project.t + string)
    (pkg : option (Package.t + string)) (force : bool) : Async unit :=
  let prj_name := prj_name_of prj in
  let route := "/source/" +:+ prj_name +:+ "/" in
  let route :=
    match truthy_value pkg with
    | Some pkg => route +:+ pkg_name_of pkg
    | None => route
    end in
  _ ← api_request osc
        (mkRequest route (Some "DELETE")
           (if force then Some {[ "force" := "1" ]} else None) None);
  mret ().

(** The element of the comprehension of [fetch_file_list] for one entry:
    [File(...)] under [if entry.name and entry.md5 and entry.size and
    entry.mtime]. *)
Definition File_of_Entry (entry : _Directory.Entry.t) : option File.t :=
  match truthy_value (_Directory.Entry.name entry),
        truthy_value (_Directory.Entry.md5 entry),
        truthy_value (_Directory.Entry.size entry),
        truthy_value (_Directory.Entry.mtime entry) with
  | Some name, Some md5, Some size, Some mtime =>
      Some (File.mk name md5 size mtime)
  | _, _, _, _ => None
  end.

Definition fetch_file_list (osc : Osc) (prj : Project.t + string)
    (pkg : Package.t + string) : Async (list File.t) :=
  let '(prj_name, pkg_name) := _prj_and_pkg_name prj pkg in
  resp ← api_request osc
           (mkRequest ("/source/" +:+ prj_name +:+ "/" +:+ pkg_name)
              None None None);
  directory ← lift (from_response resp);
  mret (omap File_of_Entry (_Directory.entry directory)).

End project.

(** ** Requests, for the statements below *)

(** The owner-search request of a call for [name] with [roles]. *)
Definition owner_search_request (name : string)
    (roles : option (list PersonRole)) : Request :=
  mkRequest "/search/owner" (Some "GET") (Some (search_params name roles)) None.

(** The names of the groups of [owner] that are fetched, in order. *)
Definition wanted_groups (groups_to_ignore : list string) (owner : Owner.t)
  : list string :=
  Group.name <$>
    filter (λ grp, Group.name grp ∉ groups_to_ignore) (Owner.group owner).

(** The outcomes of fetching [names] one after the other from log [t]. *)
Fixpoint group_outcomes (osc : Osc) (names : list string) (t : Trace)
  : list (Exception + UserGroup.t) :=
  match names with
  | [] => []
  | g :: names =>
      group_response osc t g :: group_outcomes osc names (t ++ [FetchGroup g])
  end.

(** The persons of fetched groups: the maintainers, then the members. *)
Definition members_of `{Person2Default} (res : list UserGroup.t)
  : list Person2.t :=
  flat_map (λ grp, (λ maint, Person2_of_userid (Person.userid maint)) <$>
                     UserGroup.maintainer grp) res
  ++ flat_map (λ grp, (λ pers, Person2_of_userid (Person.userid pers)) <$>
                        PersonList.person (UserGroup.person grp)) res.

(** The two tests of the loop body. *)
Definition in_package_scope (pkg_name : string) (owner : Owner.t) : bool :=
  truthy (Owner.project owner)
  && bool_decide (Owner.package owner = Some pkg_name).

Definition in_project_scope (owner : Owner.t) : bool :=
  truthy (Owner.project owner) && negb (truthy (Owner.package owner)).

(** One of the two [if] statements of the loop body, on its list. *)
Definition scope_extend `{Person2Default} (osc : Osc)
    (groups_to_ignore : list string)
    (owner : Owner.t) (in_scope : bool) (maintainers : list Person2.t)
  : Async (list Person2.t) :=
  if in_scope
  then members ← fetch_group_members osc groups_to_ignore owner;
       mret (maintainers ++ Owner.person owner ++ members)
  else mret maintainers.

(** The events of a batch of fetches for [owner]. *)
Definition fetches_of (ign : list string) (owner : Owner.t) (evs : Trace) : Prop :=
  Forall (λ ev, ∃ g, ev = FetchGroup g ∧ g ∈ wanted_groups ign owner) evs.

(** An owner record without its references to group [g]. *)
Definition without_group (g : string) (owner : Owner.t) : Owner.t :=
  Owner.mk (Owner.project owner) (Owner.package owner) (Owner.person owner)
    (filter (λ grp, Group.name grp ≠ g) (Owner.group owner)).

Definition without_group_refs (g : string) (owners : OwnerCollection.t)
  : OwnerCollection.t :=
  OwnerCollection.mk (without_group g <$> OwnerCollection.owner owners).

(** The record type [M] with [f] applied to what it parses. *)
Definition parsed_through {A} (f : A → A) (M : MetaMixin A) : MetaMixin A :=
  {| from_response := λ resp,
       match @from_response A M resp with
       | inl e => inl e
       | inr a => inr (f a)
       end;
     meta := @meta A M |}.

(** The group fetches of one turn of the loop, in order: those of the
    package test, then those of the project test. *)
Definition expected_fetches (pkg_name : string) (ign : list string)
    (owner : Owner.t) : list string :=
  (if in_package_scope pkg_name owner then wanted_groups ign owner else [])
  ++ (if in_project_scope owner then wanted_groups ign owner else []).

(** An owner record that passes one of the two tests of the loop body. *)
Definition relevant (pkg_name : string) (owner : Owner.t) : bool :=
  in_package_scope pkg_name owner || in_project_scope owner.

Definition only_relevant (pkg_name : string) (owners : OwnerCollection.t)
  : OwnerCollection.t :=
  OwnerCollection.mk
    (filter (λ owner, relevant pkg_name owner = true)
       (OwnerCollection.owner owners)).

(** The four fields of a listing entry that a [File] is made of. *)
Definition entry_of_file (entry : _Directory.Entry.t) (f : File.t) : Prop :=
  _Directory.Entry.name entry = Some (File.name f)
  ∧ _Directory.Entry.md5 entry = Some (File.md5_sum f)
  ∧ _Directory.Entry.size entry = Some (File.size f)
  ∧ _Directory.Entry.mtime entry = Some (File.mtime f).

(** [p] is a maintainer or a plain member of the fetched group [grp]. *)
Definition member_of_group `{Person2Default} (grp : UserGroup.t)
    (p : Person2.t) : Prop :=
  ∃ m, (m ∈ UserGroup.maintainer grp
        ∨ m ∈ PersonList.person (UserGroup.person grp))
       ∧ p = Person2_of_userid (Person.userid m).

(** The first failure in a list of outcomes. *)
Fixpoint first_failure {A} (rs : list (Exception + A)) : option Exception :=
  match rs with
  | [] => None
  | inl e :: _ => Some e
  | inr _ :: rs => first_failure rs
  end.

(** The log at which the fetch number [i] of [names] is made, when the
    fetches of [names] are made one after the other from log [t]. *)
Definition fetch_log (t : Trace) (names : list string) (i : nat) : Trace :=
  t ++ (FetchGroup <$> take i names).

(** [p] is named by [owner], or is a maintainer or member of what the fetch
    of a group gave, for a group that [owner] refers to and that is not
    ignored, when the fetches for [owner] are made from log [t]. *)
Definition named_at `{Person2Default} (osc : Osc) (ign : list string)
    (owner : Owner.t) (t : Trace) (p : Person2.t) : Prop :=
  p ∈ Owner.person owner
  ∨ ∃ i g grp,
      wanted_groups ign owner !! i = Some g
      ∧ group_response osc (fetch_log t (wanted_groups ign owner) i) g
        = inr grp
      ∧ member_of_group grp p.

(** ** The target shapes of [send_meta], as its overloads declare them *)

(** Which of the six keyword arguments are supplied: [prj]; [prj] and
    [pkg]; [prj_name] and [prj_meta]; [prj_name], [pkg_name] and
    [pkg_meta]. *)
Definition four_target_shapes (prj : option Project.t)
    (prj_name : option string) (prj_meta : option Element)
    (pkg : option Package.t) (pkg_name : option string)
    (pkg_meta : option Element) : bool :=
  match prj, prj_name, prj_meta, pkg, pkg_name, pkg_meta with
  | Some _, None, None, None, None, None => true
  | Some _, None, None, Some _, None, None => true
  | None, Some _, Some _, None, None, None => true
  | None, Some _, None, None, Some _, Some _ => true
  | _, _, _, _, _, _ => false
  end.

(** ** Sample data *)

(** A record type whose every response parses to [a]. *)
Definition fixed_document {A} (a : A) : MetaMixin A :=
  {| from_response := λ _, inr a; meta := λ _, ET_Element "doc" |}.

(** The sample class leaves the role of [Person2(userid)] empty. *)
Definition no_role : Person2Default := None.

Definition alice : Person2.t := Person2.mk "alice" (Some "maintainer").
Definition bob : Person2.t := Person2.mk "bob" None.

Definition owner_pkgA : Owner.t :=
  Owner.mk (Some "home:x") (Some "pkgA") [alice] [Group.mk "grp1"].

Definition grp1 : UserGroup.t :=
  UserGroup.mk [Person.mk "bob" "maintainer"] (PersonList.mk []).

(** A service that answers every request and knows the group [grp1]. *)
Definition sample_osc : Osc :=
  mkOsc (λ _ _, inr (RawBytes ""))
        (λ _ g, if decide (g = "grp1") then inr grp1
                else inl (TransportError "404 Not Found")).

Definition sample_project : Project.t :=
  Project.mk "home:x" "x's home" "" None None.

Definition sample_package : Package.t := Package.mk "pkgA" "A" "" None.

(** An owner record of a project whose [package] attribute is empty. *)
Definition owner_empty_package : Owner.t :=
  Owner.mk (Some "home:x") (Some "") [alice] [].

Definition nameless_package : Package.t := Package.mk "" "" "" None.

(** The listing entry of an empty file. *)
Definition empty_file_entry : _Directory.Entry.t :=
  _Directory.Entry.mk (Some "empty.txt")
    (Some "d41d8cd98f00b204e9800998ecf8427e") (Some 0) (Some 100)
    None None None None.

Definition listing_of (entries : list _Directory.Entry.t) : _Directory.t :=
  _Directory.mk (Some "pkgA") None None None None entries [] [].

(** An owner record of [pkgA] that refers to a group the service does not
    know. *)
Definition owner_gone_group : Owner.t :=
  Owner.mk (Some "home:x") (Some "pkgA") [alice] [Group.mk "gone"].

(** Record types whose every response parses to the sample records. *)
Definition pkgA_owners : MetaMixin OwnerCollection.t :=
  fixed_document (OwnerCollection.mk [owner_pkgA]).

Definition empty_package_owners : MetaMixin OwnerCollection.t :=
  fixed_document (OwnerCollection.mk [owner_empty_package]).

Definition gone_group_owners : MetaMixin OwnerCollection.t :=
  fixed_document (OwnerCollection.mk [owner_pkgA; owner_gone_group]).

Definition empty_file_listing : MetaMixin _Directory.t :=
  fixed_document (listing_of [empty_file_entry]).

Definition sample_project_doc : MetaMixin Project.t :=
  fixed_document sample_project.

(** The listing entry of a file with content. *)
Definition readme_entry : _Directory.Entry.t :=
  _Directory.Entry.mk (Some "README") (Some "abc123") (Some 10) (Some 100)
    None None None None.

(** An entry without md5 sum. *)
Definition partial_entry : _Directory.Entry.t :=
  _Directory.Entry.mk (Some "a.txt") None (Some 10) (Some 100)
    None None None None.

Definition sample_listing : MetaMixin _Directory.t :=
  fixed_document (listing_of [partial_entry; readme_entry; empty_file_entry]).

(** An owner record of another package, and one without project. *)
Definition owner_other_package : Owner.t :=
  Owner.mk (Some "home:x") (Some "pkgB") [bob] [Group.mk "grp1"].

Definition owner_no_project : Owner.t :=
  Owner.mk None (Some "pkgA") [bob] [Group.mk "grp1"].

Definition mixed_owners : MetaMixin OwnerCollection.t :=
  fixed_document
    (OwnerCollection.mk [owner_other_package; owner_pkgA; owner_no_project]).

(** A service whose owner search fails. *)
Definition failing_osc : Osc :=
  mkOsc (λ _ _, inl "503 Service Unavailable")
        (λ _ _, inl (TransportError "503 Service Unavailable")).

(** A document with no children. *)
Definition childless_doc : Element := ET_Element "package".

(** An owner record of [pkgA] that names [alice] twice as maintainer and
    once as bugowner. *)
Definition alice_bugowner : Person2.t := Person2.mk "alice" (Some "bugowner").

Definition owner_two_roles : Owner.t :=
  Owner.mk (Some "home:x") (Some "pkgA") [alice; alice_bugowner; alice]
    [Group.mk "grp1"].

Definition two_roles_owners : MetaMixin OwnerCollection.t :=
  fixed_document (OwnerCollection.mk [owner_two_roles]).




(** A record type of projects whose document has the title as a child. *)
Definition titled_project_doc : MetaMixin Project.t :=
  {| from_response := λ _, inr sample_project;
     meta := λ prj,
       mkElement "project" (<["name" := Project.name prj]> ∅) None
         [mkElement "title" ∅ (Some (Project.title prj)) []] |}.

(** * Properties *)

Ltac async_unfold :=
  unfold mbind, Async_bind, bind, mret, Async_ret, ret, lift, raise in *.

Section project_properties.

Context {default_role : Person2Default}
        {OwnerCollection_MetaMixin : MetaMixin OwnerCollection.t}
        {Directory_MetaMixin : MetaMixin _Directory.t}
        {Project_MetaMixin : MetaMixin Project.t}.

Variable ET_tostring : Element → string.

(** ** Truth values *)

Lemma truthy_string_ne (s : string) : truthy s = true ↔ s ≠ "".
Proof. destruct s; split; intros; done. Qed.

Lemma truthy_value_Some {A} `{Truthy A} (o : option A) (x : A) :
  truthy_value o = Some x ↔ o = Some x ∧ truthy x = true.
Proof.
  destruct o as [y|]; simpl.
  - destruct (truthy y) eqn:Hy; split.
    + intros [= ->]. done.
    + intros [[= ->] _]. done.
    + done.
    + intros [[= ->] Hx]. congruence.
  - split; [done | intros [? _]; done].
Qed.

Lemma truthy_value_None {A} `{Truthy A} (o : option A) :
  truthy_value o = None ↔ truthy o = false.
Proof.
  destruct o as [y|]; [|done].
  change (truthy (Some y)) with (truthy y). simpl.
  destruct (truthy y); split; congruence.
Qed.

Lemma truthy_value_dataclass {A} `{Truthy A} (o : option A) :
  (∀ x : A, truthy x = true) → truthy_value o = o.
Proof. intros Hx. destruct o as [y|]; [|done]. simpl. by rewrite Hx. Qed.

(** ** Strings *)

Lemma string_app_assoc (s1 s2 s3 : string) :
  (s1 +:+ s2) +:+ s3 = s1 +:+ s2 +:+ s3.
Proof.
  induction s1 as [|a s1 IH]; [done|].
  change (String a ((s1 +:+ s2) +:+ s3) = String a (s1 +:+ s2 +:+ s3)).
  by rewrite IH.
Qed.

Lemma string_app_nil_r (s : string) : s +:+ "" = s.
Proof.
  induction s as [|a s IH]; [done|].
  change (String a (s +:+ "") = String a s). by rewrite IH.
Qed.

Lemma string_app_ne_self (s1 s2 : string) : s2 ≠ "" → s1 +:+ s2 ≠ s1.
Proof.
  intros Hs2 Heq. apply Hs2.
  apply (inj (String.app s1)). by rewrite string_app_nil_r.
Qed.

(** ** delete *)

Lemma delete_route_eq (p : string) (pkg : option (Package.t + string)) :
  match truthy_value pkg with
  | Some q => ("/source/" +:+ p +:+ "/") +:+ pkg_name_of q
  | None => "/source/" +:+ p +:+ "/"
  end = "/source/" +:+ p +:+ "/" +:+ from_option pkg_name_of "" pkg.
Proof.
  destruct pkg as [[q|[|a s]]|]; simpl.
  - by rewrite !string_app_assoc.
  - by rewrite string_app_nil_r.
  - change (truthy (String a s)) with true. cbv iota.
    by rewrite !string_app_assoc.
  - by rewrite string_app_nil_r.
Qed.

(** C8 (as amended): for every project [p], optional package and [force],
    [delete] issues exactly one request, a DELETE, to the path
    [/source/{p}/] (with the slash at its end) when no package is supplied
    and to [/source/{p}/{q}] when package [q] is supplied; its parameters
    are [force=1] exactly when [force] is true, and there are none
    otherwise.  The call returns when the transport answers and raises the
    transport's failure otherwise. *)
Theorem delete_issues_one_DELETE osc prj pkg force t :
  let path :=
    match pkg with
    | None => "/source/" +:+ prj_name_of prj +:+ "/"
    | Some q => "/source/" +:+ prj_name_of prj +:+ "/" +:+ pkg_name_of q
    end in
  ∃ req,
    delete osc prj pkg force t =
      (t ++ [ApiRequest req],
       match api_response osc t req with
       | inl descr => inl (TransportError descr)
       | inr _ => inr ()
       end)
    ∧ route req = path
    ∧ method req = Some "DELETE"
    ∧ payload req = None
    ∧ (force = true → params req = Some {[ "force" := "1" ]})
    ∧ (force = false → params req = None)
    ∧ (params req ≫= (.!! "force") = Some "1" ↔ force = true).
Proof.
  intros path.
  eexists (mkRequest path (Some "DELETE")
             (if force then Some {[ "force" := "1" ]} else None) None).
  split; [|split_and!; try done].
  - unfold delete. async_unfold. unfold api_request. cbv zeta.
    rewrite delete_route_eq.
    replace ("/source/" +:+ prj_name_of prj +:+ "/" +:+
               from_option pkg_name_of "" pkg) with path; cycle 1.
    { subst path. destruct pkg as [q|]; simpl; [done|].
      by rewrite string_app_nil_r. }
    by destruct (api_response osc t _).
  - by intros ->.
  - by intros ->.
  - destruct force; simpl; [|done]. by rewrite lookup_singleton_eq.
Qed.

(** ** send_meta *)

(** [truthy_value] in terms of [truthy], for case analysis. *)
Lemma truthy_value_case {A} `{Truthy A} (o : option A) :
  (∃ x, o = Some x ∧ truthy o = true ∧ truthy_value o = Some x)
  ∨ (truthy o = false ∧ truthy_value o = None).
Proof.
  destruct o as [x|]; [|by right].
  change (truthy (Some x)) with (truthy x). simpl.
  destruct (truthy x); [left; by exists x | by right].
Qed.

(** C3 (as amended): when no [prj] is supplied, and [prj_name], [pkg_name]
    and [pkg_meta] are not all true, and [prj_name] and [prj_meta] are not
    both true, [send_meta] fails with the assertion error "Invalid
    parameter combination" and has issued no request; that error is not a
    transport error. *)
Theorem send_meta_no_target_fails osc prj_name prj_meta pkg pkg_name pkg_meta t :
  truthy prj_name && truthy pkg_name && truthy pkg_meta = false →
  truthy prj_name && truthy prj_meta = false →
  send_meta ET_tostring osc None prj_name prj_meta pkg pkg_name pkg_meta t
    = (t, inl (AssertionError "Invalid parameter combination"))
  ∧ ∀ descr,
      AssertionError "Invalid parameter combination" ≠ TransportError descr.
Proof.
  intros H3 H4. split; [|done].
  unfold send_meta. async_unfold. cbv zeta.
  change (truthy_value (@None Project.t)) with (@None Project.t). cbv iota.
  destruct (truthy_value_case prj_name) as [(n & _ & Hn & ->)|[Hn ->]];
    rewrite Hn in H3, H4; simpl in H3, H4.
  - destruct (truthy_value_case prj_meta) as [(m & _ & Hm & ->)|[Hm ->]];
      rewrite Hm in H4; [done|].
    destruct (truthy_value_case pkg_name) as [(k & _ & Hk & ->)|[Hk ->]];
      rewrite Hk in H3; simpl in H3; [|done].
    destruct (truthy_value_case pkg_meta) as [(d & _ & Hd & ->)|[Hd ->]];
      rewrite Hd in H3; done.
  - done.
Qed.

Lemma bind_api_request_unit osc req t :
  (api_request osc req ≫= λ _, mret ()) t =
    (t ++ [ApiRequest req],
     match api_response osc t req with
     | inl descr => inl (TransportError descr)
     | inr _ => inr ()
     end).
Proof.
  async_unfold. unfold api_request. by destruct (api_response osc t req).
Qed.

Local Ltac send_meta_request :=
  eexists _, _; cbv zeta;
  etrans; [|apply bind_api_request_unit]; reflexivity.

(** In every other case [send_meta] issues one PUT request, to a path that
    ends in [/_meta]. *)
Lemma send_meta_target_requests osc prj prj_name prj_meta pkg pkg_name pkg_meta t :
  truthy prj
    || truthy prj_name && truthy pkg_name && truthy pkg_meta
    || truthy prj_name && truthy prj_meta = true →
  ∃ path body,
    send_meta ET_tostring osc prj prj_name prj_meta pkg pkg_name pkg_meta t =
      let req :=
        mkRequest (path +:+ "/_meta") (Some "PUT") None (Some body) in
      (t ++ [ApiRequest req],
       match api_response osc t req with
       | inl descr => inl (TransportError descr)
       | inr _ => inr ()
       end).
Proof.
  intros Hcase.
  unfold send_meta. cbv zeta.
  destruct prj as [p|].
  { rewrite (truthy_value_dataclass (Some p)) by done.
    rewrite (truthy_value_dataclass pkg) by done.
    destruct pkg as [q|]; send_meta_request. }
  change (truthy (@None Project.t)) with false in Hcase. simpl in Hcase.
  change (truthy_value (@None Project.t)) with (@None Project.t). cbv iota.
  destruct (truthy_value_case prj_name) as [(n & _ & Hn & ->)|[Hn ->]];
    rewrite Hn in Hcase; simpl in Hcase; [|done].
  destruct (truthy_value_case pkg_name) as [(k & _ & Hk & ->)|[Hk ->]];
    rewrite Hk in Hcase; simpl in Hcase.
  - destruct (truthy_value_case pkg_meta) as [(d & _ & Hd & ->)|[Hd ->]];
      rewrite Hd in Hcase; simpl in Hcase.
    + send_meta_request.
    + destruct (truthy_value_case prj_meta) as [(m & _ & Hm & ->)|[Hm ->]];
        rewrite Hm in Hcase; [|done].
      send_meta_request.
  - destruct (truthy_value_case prj_meta) as [(m & _ & Hm & ->)|[Hm ->]];
      rewrite Hm in Hcase; [|done].
    send_meta_request.
Qed.

(** ** fetch_file_list *)

(** What [fetch_file_list] does: one request for the listing, then the
    comprehension over the parsed entries. *)
Lemma fetch_file_list_eq osc prj pkg t :
  fetch_file_list osc prj pkg t =
    let req :=
      mkRequest ("/source/" +:+ prj_name_of prj +:+ "/" +:+ pkg_name_of pkg)
        None None None in
    (t ++ [ApiRequest req],
     match api_response osc t req with
     | inl descr => inl (TransportError descr)
     | inr resp =>
         match from_response resp with
         | inl e => inl e
         | inr directory =>
             inr (omap File_of_Entry (_Directory.entry directory))
         end
     end).
Proof.
  unfold fetch_file_list, _prj_and_pkg_name. async_unfold.
  unfold api_request. cbv zeta.
  destruct (api_response osc t _) as [descr|resp]; [done|].
  by destruct (from_response resp).
Qed.

(** An entry yields a [File] exactly when its four fields are there and
    true: the strings not empty, the numbers not zero. *)
Lemma File_of_Entry_Some entry f :
  File_of_Entry entry = Some f ↔
    _Directory.Entry.name entry = Some (File.name f) ∧ File.name f ≠ "" ∧
    _Directory.Entry.md5 entry = Some (File.md5_sum f) ∧ File.md5_sum f ≠ "" ∧
    _Directory.Entry.size entry = Some (File.size f) ∧ File.size f ≠ 0 ∧
    _Directory.Entry.mtime entry = Some (File.mtime f) ∧ File.mtime f ≠ 0.
Proof.
  unfold File_of_Entry. destruct f as [n m s mt]. simpl. split.
  - destruct (truthy_value (_Directory.Entry.name entry)) as [n'|] eqn:Hn;
      [|done].
    destruct (truthy_value (_Directory.Entry.md5 entry)) as [m'|] eqn:Hm;
      [|done].
    destruct (truthy_value (_Directory.Entry.size entry)) as [s'|] eqn:Hs;
      [|done].
    destruct (truthy_value (_Directory.Entry.mtime entry)) as [mt'|] eqn:Ht;
      [|done].
    intros [= -> -> -> ->].
    apply truthy_value_Some in Hn as [-> Hn], Hm as [-> Hm],
      Hs as [-> Hs], Ht as [-> Ht].
    apply truthy_string_ne in Hn, Hm.
    unfold truthy, Z_truthy in Hs, Ht.
    apply negb_true_iff, Z.eqb_neq in Hs, Ht. done.
  - intros (-> & Hn & -> & Hm & -> & Hs & -> & Ht).
    apply truthy_string_ne in Hn, Hm.
    apply Z.eqb_neq in Hs, Ht.
    simpl. rewrite Hn, Hm. unfold truthy, Z_truthy. by rewrite Hs, Ht.
Qed.

(** ** search_for_maintainers: the shape of a call *)

Lemma resolve_pkg_name_eq pkg pkg_name t :
  resolve_pkg_name pkg pkg_name t =
    (t, match truthy_value pkg_name with
        | Some name => inr name
        | None =>
            match pkg with
            | Some p => inr (Package.name p)
            | None => inl (AssertionError "")
            end
        end).
Proof.
  unfold resolve_pkg_name.
  destruct (truthy_value pkg_name); [done|].
  rewrite (truthy_value_dataclass pkg) by done. by destruct pkg.
Qed.

Lemma search_for_maintainers_eq (M : MetaMixin OwnerCollection.t)
    osc pkg pkg_name roles ign t :
  @search_for_maintainers _ M osc pkg pkg_name roles ign t =
    match (resolve_pkg_name pkg pkg_name t).2 with
    | inl e => (t, inl e)
    | inr name =>
        let req := owner_search_request name roles in
        let t1 := t ++ [ApiRequest req] in
        match api_response osc t req with
        | inl descr => (t1, inl (TransportError descr))
        | inr resp =>
            match @from_response _ M resp with
            | inl e => (t1, inl e)
            | inr owners =>
                match owners_loop osc name (default [] ign)
                        (OwnerCollection.owner owners) ([], []) t1 with
                | (t2, inl e) => (t2, inl e)
                | (t2, inr (pkg_maintainers, prj_maintainers)) =>
                    (t2, inr (PackageMaintainers.mk
                                (list_set pkg_maintainers)
                                (list_set prj_maintainers)))
                end
            end
        end
    end.
Proof.
  unfold search_for_maintainers. async_unfold.
  rewrite resolve_pkg_name_eq. simpl.
  destruct (match truthy_value pkg_name with Some _ => _ | None => _ end)
    as [e|name]; [done|].
  unfold api_request, owner_search_request. cbv zeta.
  destruct (api_response osc t _) as [descr|resp]; [done|].
  destruct (from_response resp) as [e|owners]; [done|].
  destruct (owners_loop _ _ _ _ _ _) as [t2 [e|[pm jm]]]; done.
Qed.

(** ** Waiting for group fetches *)

Lemma run_all_fetch_group osc names t :
  run_all (fetch_group osc <$> names) t =
    (t ++ (FetchGroup <$> names), group_outcomes osc names t).
Proof.
  revert t. induction names as [|g names IH]; intros t; simpl.
  - by rewrite app_nil_r.
  - unfold fetch_group at 1. rewrite IH. by rewrite <- app_assoc.
Qed.

Lemma fetch_group_members_eq osc ign owner t :
  fetch_group_members osc ign owner t =
    (t ++ (FetchGroup <$> wanted_groups ign owner),
     match join (group_outcomes osc (wanted_groups ign owner) t) with
     | inl e => inl e
     | inr res => inr (members_of res)
     end).
Proof.
  unfold fetch_group_members, gather. async_unfold. cbv zeta.
  rewrite (list_fmap_compose Group.name (fetch_group osc)).
  fold (wanted_groups ign owner).
  rewrite run_all_fetch_group.
  by destruct (join _).
Qed.

(** A failed wait raises the failure of one of its tasks. *)
Lemma join_inl {A} (rs : list (Exception + A)) e :
  join rs = inl e → inl e ∈ rs.
Proof.
  induction rs as [|[e'|a] rs IH]; simpl; [done| |].
  - intros [= ->]. apply list_elem_of_here.
  - destruct (join rs); [|done]. intros [= ->].
    apply list_elem_of_further. by apply IH.
Qed.

Lemma group_outcomes_elem osc names t r :
  r ∈ group_outcomes osc names t →
  ∃ t' g, g ∈ names ∧ r = group_response osc t' g.
Proof.
  revert t. induction names as [|g names IH]; intros t; simpl.
  - by intros ?%not_elem_of_nil.
  - intros [->|Hin]%elem_of_cons.
    + exists t, g. split; [apply list_elem_of_here|done].
    + destruct (IH _ Hin) as (t' & g' & Hg' & ->).
      exists t', g'. split; [by apply list_elem_of_further|done].
Qed.

Lemma elem_of_wanted_groups ign owner g :
  g ∈ wanted_groups ign owner ↔
    (g ∉ ign) ∧ ∃ grp, grp ∈ Owner.group owner ∧ Group.name grp = g.
Proof.
  unfold wanted_groups. rewrite list_elem_of_fmap. split.
  - intros (grp & -> & [Hign Hin]%list_elem_of_filter). eauto.
  - intros (Hign & grp & Hin & <-). exists grp. split; [done|].
    by apply list_elem_of_filter.
Qed.

(** ** The loop body *)

Lemma owner_step_scopes osc name ign pm jm owner :
  owner_step osc name ign (pm, jm) owner =
    (pm' ← scope_extend osc ign owner (in_package_scope name owner) pm;
     jm' ← scope_extend osc ign owner (in_project_scope owner) jm;
     mret (pm', jm')).
Proof. reflexivity. Qed.

Lemma scope_extend_eq osc ign owner in_scope l t :
  scope_extend osc ign owner in_scope l t =
    if in_scope
    then (t ++ (FetchGroup <$> wanted_groups ign owner),
          match join (group_outcomes osc (wanted_groups ign owner) t) with
          | inl e => inl e
          | inr res => inr (l ++ Owner.person owner ++ members_of res)
          end)
    else (t, inr l).
Proof.
  unfold scope_extend. destruct in_scope; [|done].
  async_unfold. rewrite fetch_group_members_eq. by destruct (join _).
Qed.

(** The two tests exclude each other, unless the queried name is empty. *)
Lemma scopes_exclusive name owner :
  name ≠ "" → in_package_scope name owner && in_project_scope owner = false.
Proof.
  intros Hname. unfold in_package_scope, in_project_scope.
  destruct (truthy (Owner.project owner)); [|done]. simpl.
  case_bool_decide as Hpkg; [|done]. rewrite Hpkg. simpl.
  apply truthy_string_ne in Hname.
  change (truthy (Some name)) with (truthy name). by rewrite Hname.
Qed.

Lemma fetches_of_wanted ign owner :
  fetches_of ign owner (FetchGroup <$> wanted_groups ign owner).
Proof.
  apply Forall_fmap, Forall_forall. intros g Hg. simpl. eauto.
Qed.

Lemma scope_extend_trace osc ign owner in_scope l t :
  ∃ evs, (scope_extend osc ign owner in_scope l t).1 = t ++ evs
         ∧ fetches_of ign owner evs.
Proof.
  rewrite scope_extend_eq. destruct in_scope; simpl.
  - eexists. split; [done|]. apply fetches_of_wanted.
  - exists []. split; [by rewrite app_nil_r|]. constructor.
Qed.

Lemma scope_extend_inl osc ign owner in_scope l t t' e :
  scope_extend osc ign owner in_scope l t = (t', inl e) →
  ∃ t'' g, g ∈ wanted_groups ign owner ∧ group_response osc t'' g = inl e.
Proof.
  rewrite scope_extend_eq. destruct in_scope; [|done].
  destruct (join _) as [e'|res] eqn:Hjoin; [|done]. intros [= _ ->].
  apply join_inl, group_outcomes_elem in Hjoin as (t'' & g & Hg & Heq).
  eauto.
Qed.

Lemma scope_extend_inr osc ign owner in_scope l t t' l' :
  scope_extend osc ign owner in_scope l t = (t', inr l') →
  if in_scope then ∃ members, l' = l ++ Owner.person owner ++ members
  else l' = l.
Proof.
  rewrite scope_extend_eq. destruct in_scope.
  - destruct (join _) as [e'|res]; [done|]. intros [= _ <-]. eauto.
  - by intros [= _ <-].
Qed.

Lemma owner_step_trace osc name ign acc owner t :
  ∃ evs, (owner_step osc name ign acc owner t).1 = t ++ evs
         ∧ fetches_of ign owner evs.
Proof.
  destruct acc as [pm jm]. rewrite owner_step_scopes. async_unfold.
  destruct (scope_extend_trace osc ign owner (in_package_scope name owner) pm t)
    as (evs1 & H1 & F1).
  destruct (scope_extend osc ign owner (in_package_scope name owner) pm t)
    as [t1 [e|pm']]; simpl in H1; subst t1; [by exists evs1|].
  destruct (scope_extend_trace osc ign owner (in_project_scope owner) jm
              (t ++ evs1)) as (evs2 & H2 & F2).
  destruct (scope_extend osc ign owner (in_project_scope owner) jm (t ++ evs1))
    as [t2 [e|jm']]; simpl in H2; subst t2; exists (evs1 ++ evs2);
    (split; [by rewrite app_assoc | by apply Forall_app]).
Qed.

Lemma owner_step_inr osc name ign pm jm owner t t' pm' jm' :
  owner_step osc name ign (pm, jm) owner t = (t', inr (pm', jm')) →
  (if in_package_scope name owner
   then ∃ members, pm' = pm ++ Owner.person owner ++ members else pm' = pm)
  ∧ (if in_project_scope owner
     then ∃ members, jm' = jm ++ Owner.person owner ++ members else jm' = jm).
Proof.
  rewrite owner_step_scopes. async_unfold.
  destruct (scope_extend osc ign owner (in_package_scope name owner) pm t)
    as [t1 [e|pm1]] eqn:H1; [done|].
  destruct (scope_extend osc ign owner (in_project_scope owner) jm t1)
    as [t2 [e|jm1]] eqn:H2; [done|].
  intros [= -> -> ->].
  split; [exact (scope_extend_inr _ _ _ _ _ _ _ _ H1)
         | exact (scope_extend_inr _ _ _ _ _ _ _ _ H2)].
Qed.

Lemma owner_step_inl osc name ign acc owner t t' e :
  owner_step osc name ign acc owner t = (t', inl e) →
  in_package_scope name owner || in_project_scope owner = true
  ∧ ∃ t'' g, g ∈ wanted_groups ign owner ∧ group_response osc t'' g = inl e.
Proof.
  destruct acc as [pm jm]. rewrite owner_step_scopes. async_unfold.
  destruct (scope_extend osc ign owner (in_package_scope name owner) pm t)
    as [t1 [e1|pm1]] eqn:H1.
  - intros [= -> ->]. split; [|by eapply scope_extend_inl].
    destruct (in_package_scope name owner); [done|].
    by rewrite scope_extend_eq in H1.
  - destruct (scope_extend osc ign owner (in_project_scope owner) jm t1)
      as [t2 [e2|jm1]] eqn:H2; [|done].
    intros [= -> ->]. split; [|by eapply scope_extend_inl].
    destruct (in_project_scope owner); [apply orb_true_r|].
    by rewrite scope_extend_eq in H2.
Qed.

(** ** The loop *)

Lemma owners_loop_cons osc name ign owner owners acc t :
  owners_loop osc name ign (owner :: owners) acc t =
    match owner_step osc name ign acc owner t with
    | (t1, inl e) => (t1, inl e)
    | (t1, inr acc1) => owners_loop osc name ign owners acc1 t1
    end.
Proof. reflexivity. Qed.

Lemma owners_loop_trace osc name ign owners acc t :
  ∃ evs, (owners_loop osc name ign owners acc t).1 = t ++ evs
         ∧ Forall (λ ev, ∃ g, ev = FetchGroup g ∧ g ∉ ign) evs.
Proof.
  revert acc t. induction owners as [|owner owners IH]; intros acc t.
  - exists []. split; [by rewrite app_nil_r|constructor].
  - rewrite owners_loop_cons.
    destruct (owner_step_trace osc name ign acc owner t) as (evs1 & H1 & F1).
    assert (Forall (λ ev, ∃ g, ev = FetchGroup g ∧ g ∉ ign) evs1) as F1'.
    { eapply Forall_impl; [exact F1|]. intros ev (g & -> & Hg). simpl.
      apply elem_of_wanted_groups in Hg as [Hg _]. eauto. }
    destruct (owner_step osc name ign acc owner t) as [t1 [e|acc1]];
      simpl in H1; subst t1; [by exists evs1|].
    destruct (IH acc1 (t ++ evs1)) as (evs2 & H2 & F2).
    exists (evs1 ++ evs2). rewrite H2.
    split; [by rewrite app_assoc | by apply Forall_app].
Qed.

Lemma owners_loop_inr osc name ign owners pm jm t t' pm' jm' :
  owners_loop osc name ign owners (pm, jm) t = (t', inr (pm', jm')) →
  pm ⊆ pm' ∧ jm ⊆ jm'
  ∧ (∀ owner, owner ∈ owners →
       (in_package_scope name owner = true → Owner.person owner ⊆ pm')
       ∧ (in_project_scope owner = true → Owner.person owner ⊆ jm'))
  ∧ ((∀ owner, owner ∈ owners → in_package_scope name owner = false) →
     pm' = pm)
  ∧ ((∀ owner, owner ∈ owners → in_project_scope owner = false) →
     jm' = jm).
Proof.
  revert pm jm t. induction owners as [|owner owners IH]; intros pm jm t.
  - intros [= -> -> ->]. split_and!; try done.
    intros owner Hin. by apply not_elem_of_nil in Hin.
  - rewrite owners_loop_cons.
    destruct (owner_step osc name ign (pm, jm) owner t)
      as [t1 [e|[pm1 jm1]]] eqn:Hstep; [done|].
    intros Hloop. apply IH in Hloop as (Hpm & Hjm & Hin & Hnop & Hnoj).
    apply owner_step_inr in Hstep as [Hp Hj].
    assert (pm ⊆ pm1 ∧ (in_package_scope name owner = true →
                         Owner.person owner ⊆ pm1)) as [Hpm1 Hper1].
    { destruct (in_package_scope name owner).
      - destruct Hp as [ms ->]. split; [|intros _]; intros x Hx;
          rewrite !elem_of_app; auto.
      - subst pm1. done. }
    assert (jm ⊆ jm1 ∧ (in_project_scope owner = true →
                         Owner.person owner ⊆ jm1)) as [Hjm1 Hper2].
    { destruct (in_project_scope owner).
      - destruct Hj as [ms ->]. split; [|intros _]; intros x Hx;
          rewrite !elem_of_app; auto.
      - subst jm1. done. }
    split_and!.
    + by etrans.
    + by etrans.
    + intros o [->|Ho]%elem_of_cons; [|by apply Hin].
      split; intros Hs; [specialize (Hper1 Hs)|specialize (Hper2 Hs)];
        by etrans.
    + intros Hall. rewrite Hnop.
      * rewrite (Hall owner) in Hp; [done|apply list_elem_of_here].
      * intros o Ho. apply Hall. by apply list_elem_of_further.
    + intros Hall. rewrite Hnoj.
      * rewrite (Hall owner) in Hj; [done|apply list_elem_of_here].
      * intros o Ho. apply Hall. by apply list_elem_of_further.
Qed.

Lemma owners_loop_inl osc name ign owners acc t t' e :
  owners_loop osc name ign owners acc t = (t', inl e) →
  ∃ owner t'' g,
    owner ∈ owners
    ∧ in_package_scope name owner || in_project_scope owner = true
    ∧ g ∈ wanted_groups ign owner
    ∧ group_response osc t'' g = inl e.
Proof.
  revert acc t. induction owners as [|owner owners IH]; intros acc t.
  - done.
  - rewrite owners_loop_cons.
    destruct (owner_step osc name ign acc owner t) as [t1 [e1|acc1]] eqn:Hstep.
    + intros [= -> ->].
      apply owner_step_inl in Hstep as (Hscope & t'' & g & Hg & He).
      exists owner, t'', g. split_and!; try done. apply list_elem_of_here.
    + intros (o & t'' & g & Ho & ?)%IH. exists o, t'', g.
      split; [by apply list_elem_of_further|done].
Qed.

(** ** search_for_maintainers *)

(** A call that resolves its package name, gets an answer to its owner
    search and parses it, is the loop over the owner records. *)
Lemma search_for_maintainers_loop osc pkg pkg_name roles ign t name resp owners :
  (resolve_pkg_name pkg pkg_name t).2 = inr name →
  api_response osc t (owner_search_request name roles) = inr resp →
  from_response resp = inr owners →
  search_for_maintainers osc pkg pkg_name roles ign t =
    match owners_loop osc name (default [] ign)
            (OwnerCollection.owner owners) ([], [])
            (t ++ [ApiRequest (owner_search_request name roles)]) with
    | (t2, inl e) => (t2, inl e)
    | (t2, inr (pkg_maintainers, prj_maintainers)) =>
        (t2, inr (PackageMaintainers.mk (list_set pkg_maintainers)
                                        (list_set prj_maintainers)))
    end.
Proof.
  intros Hname Hresp Hparse. rewrite search_for_maintainers_eq.
  rewrite Hname. cbv zeta. by rewrite Hresp, Hparse.
Qed.

Lemma elem_of_list_set (l : list Person2.t) (p : Person2.t) :
  p ∈ list_set l ↔ p ∈ l.
Proof. unfold list_set. by rewrite elem_of_elements, elem_of_list_to_set. Qed.

Lemma NoDup_list_set (l : list Person2.t) : NoDup (list_set l).
Proof. unfold list_set. apply NoDup_elements. Qed.

Lemma list_set_nil : list_set [] = [].
Proof. unfold list_set. simpl. apply elements_empty. Qed.



(** C5 (as amended): whenever [search_for_maintainers] returns, no two
    elements of the package list of its result are equal, and no two of its
    project list, where persons are equal when they agree on user id and on
    role: no pair of user id and role occurs twice in either list. *)
Theorem search_for_maintainers_no_equal_persons osc pkg pkg_name roles ign t t' r :
  search_for_maintainers osc pkg pkg_name roles ign t = (t', inr r) →
  NoDup ((λ p, (Person2.userid p, Person2.role p))
           <$> PackageMaintainers.package r)
  ∧ NoDup ((λ p, (Person2.userid p, Person2.role p))
             <$> PackageMaintainers.project r).
Proof.
  rewrite search_for_maintainers_eq.
  destruct (resolve_pkg_name pkg pkg_name t).2 as [e|name]; [done|].
  cbv zeta. destruct (api_response osc t _) as [descr|resp]; [done|].
  destruct (from_response resp) as [e|owners]; [done|].
  destruct (owners_loop _ _ _ _ _ _) as [t2 [e|[pm jm]]]; [done|].
  intros [= _ <-]. simpl.
  assert (Inj (=) (=) (λ p, (Person2.userid p, Person2.role p))) as Hinj.
  { intros [u1 r1] [u2 r2]. simpl. by intros [= -> ->]. }
  split; apply (NoDup_fmap_2 _), NoDup_list_set.
Qed.


Lemma search_params_lookup name roles :
  let params := search_params name roles in
  params !! "package" = Some name
  ∧ params !! "filter" =
      match roles with
      | Some (role :: roles) => Some (String.concat "," (role :: roles))
      | _ => None
      end
  ∧ ∀ k, k ≠ "package" → k ≠ "filter" → params !! k = None.
Proof.
  unfold search_params. destruct roles as [[|role roles]|]; simpl.
  - split_and!; [done..|]. intros k Hk _. by rewrite lookup_singleton_ne.
  - split_and!.
    + rewrite lookup_insert_ne by done. apply lookup_singleton_eq.
    + apply lookup_insert_eq.
    + intros k Hk Hf. rewrite lookup_insert_ne by done.
      by rewrite lookup_singleton_ne.
  - split_and!; [done..|]. intros k Hk _. by rewrite lookup_singleton_ne.
Qed.

(** C9 (as amended): a call of [search_for_maintainers] that supplies a
    non-empty [pkg_name], or else a [pkg] record, issues exactly one request
    through [api_request], before anything else: a GET of [/search/owner]
    whose parameter [package] is the resolved package name and whose
    parameter [filter] is the role names joined by commas when a non-empty
    list of roles is supplied, and absent otherwise; there is no other
    parameter, and everything the call asks afterwards is a group fetch. *)
Theorem search_for_maintainers_one_owner_search
    osc pkg pkg_name roles ign t name :
  (pkg_name = Some name ∧ name ≠ "")
  ∨ (truthy pkg_name = false ∧ ∃ p, pkg = Some p ∧ Package.name p = name) →
  ∃ params evs,
    (search_for_maintainers osc pkg pkg_name roles ign t).1 =
      t ++ ApiRequest (mkRequest "/search/owner" (Some "GET") (Some params)
                         None) :: evs
    ∧ params !! "package" = Some name
    ∧ params !! "filter" =
        match roles with
        | Some (role :: roles) => Some (String.concat "," (role :: roles))
        | _ => None
        end
    ∧ (∀ k, k ≠ "package" → k ≠ "filter" → params !! k = None)
    ∧ Forall (λ ev, ∃ g, ev = FetchGroup g) evs.
Proof.
  intros Hname.
  assert ((resolve_pkg_name pkg pkg_name t).2 = inr name) as Hres.
  { rewrite resolve_pkg_name_eq. simpl.
    destruct Hname as [[-> Hne]|(Hpn & p & -> & <-)].
    - apply truthy_string_ne in Hne. simpl. by rewrite Hne.
    - apply truthy_value_None in Hpn. by rewrite Hpn. }
  rewrite search_for_maintainers_eq, Hres. cbv zeta.
  destruct (search_params_lookup name roles) as (Hp & Hf & Hk).
  exists (search_params name roles).
  unfold owner_search_request.
  destruct (api_response osc t _) as [descr|resp].
  { exists []. simpl. split_and!; try done. }
  destruct (from_response resp) as [e|owners].
  { exists []. simpl. split_and!; try done. }
  match goal with |- context [owners_loop ?o ?n ?i ?l ?a ?t1] =>
    destruct (owners_loop_trace o n i l a t1) as (evs & Hevs & Hfetch);
    destruct (owners_loop o n i l a t1) as [t2 [e|[pm jm]]]
  end; simpl in Hevs; subst t2; exists evs; simpl;
    (split_and!; try done;
     [ by rewrite <- app_assoc
     | eapply Forall_impl; [exact Hfetch|]; intros ev (g & -> & _); eauto ]).
Qed.

(** ** Scopes *)

Lemma in_package_scope_true name owner :
  in_package_scope name owner = true ↔
    truthy (Owner.project owner) = true ∧ Owner.package owner = Some name.
Proof.
  unfold in_package_scope.
  rewrite andb_true_iff, bool_decide_eq_true. done.
Qed.

Lemma in_project_scope_true owner :
  in_project_scope owner = true ↔
    truthy (Owner.project owner) = true
    ∧ truthy (Owner.package owner) = false.
Proof.
  unfold in_project_scope.
  rewrite andb_true_iff, negb_true_iff. done.
Qed.

(** An owner record of the project scope alone extends the project list
    by its persons and the members of its groups. *)
Lemma owner_step_project_scope osc name ign pm jm owner t :
  in_package_scope name owner = false →
  in_project_scope owner = true →
  owner_step osc name ign (pm, jm) owner t =
    match fetch_group_members osc ign owner t with
    | (t', inl e) => (t', inl e)
    | (t', inr members) =>
        (t', inr (pm, jm ++ Owner.person owner ++ members))
    end.
Proof.
  intros Hpkg Hprj. rewrite owner_step_scopes, Hpkg, Hprj.
  unfold scope_extend. async_unfold.
  by destruct (fetch_group_members osc ign owner t) as [t' [e|members]].
Qed.

(** C2 (as amended): for every owner-search response and queried package
    name, the persons of each owner record with a project and with the
    queried package are in the package list of the result, and the persons
    of each owner record with a project and an empty package field are in
    its project list.  When the queried name is not empty, such a record
    of the project scope leaves the package list as it is and adds its
    persons and the members of its groups to the project list, no turn of
    the loop changes both lists, and a response with no record naming the
    queried package gives an empty package list. *)
Theorem owner_record_scopes osc pkg pkg_name roles ign t name resp owners :
  (resolve_pkg_name pkg pkg_name t).2 = inr name →
  api_response osc t (owner_search_request name roles) = inr resp →
  from_response resp = inr owners →
  (∀ t' r,
     search_for_maintainers osc pkg pkg_name roles ign t = (t', inr r) →
     ∀ owner, owner ∈ OwnerCollection.owner owners →
       truthy (Owner.project owner) = true →
       (Owner.package owner = Some name →
        Owner.person owner ⊆ PackageMaintainers.package r)
       ∧ (truthy (Owner.package owner) = false →
          Owner.person owner ⊆ PackageMaintainers.project r))
  ∧ (name ≠ "" →
     (∀ owner pm jm t1 t2 pm' jm',
        owner_step osc name (default [] ign) (pm, jm) owner t1
          = (t2, inr (pm', jm')) →
        (pm' = pm ∨ jm' = jm)
        ∧ (truthy (Owner.project owner) = true →
           truthy (Owner.package owner) = false →
           pm' = pm
           ∧ ∃ members,
               fetch_group_members osc (default [] ign) owner t1
                 = (t2, inr members)
               ∧ jm' = jm ++ Owner.person owner ++ members))
     ∧ (∀ t' r,
          search_for_maintainers osc pkg pkg_name roles ign t = (t', inr r) →
          (∀ owner, owner ∈ OwnerCollection.owner owners →
             truthy (Owner.package owner) = false) →
          PackageMaintainers.package r = [])).
Proof.
  intros Hname Hresp Hparse.
  rewrite (search_for_maintainers_loop _ _ _ _ _ _ _ _ _ Hname Hresp Hparse).
  split; [|intros Hne; split].
  - intros t' r Hrun owner Hin Hprj.
    destruct (owners_loop _ _ _ _ _ _) as [t2 [e|[pm jm]]] eqn:Hloop; [done|].
    injection Hrun as _ <-. simpl.
    apply owners_loop_inr in Hloop as (_ & _ & Hper & _).
    destruct (Hper owner Hin) as [Hp Hj].
    split; intros Hpkg x Hx; apply elem_of_list_set.
    + apply Hp; [by apply in_package_scope_true|done].
    + apply Hj; [by apply in_project_scope_true|done].
  - intros owner pm jm t1 t2 pm' jm' Hstep.
    pose proof (scopes_exclusive name owner Hne) as Hex.
    split.
    + apply owner_step_inr in Hstep as [Hp Hj].
      destruct (in_package_scope name owner); [|by left].
      simpl in Hex. rewrite Hex in Hj. by right.
    + intros Hprj Hpkg.
      assert (in_project_scope owner = true) as Hin
        by by apply in_project_scope_true.
      rewrite Hin, andb_true_r in Hex.
      rewrite (owner_step_project_scope _ _ _ _ _ _ _ Hex Hin) in Hstep.
      destruct (fetch_group_members _ _ _ _) as [t3 [e|members]]; [done|].
      injection Hstep as -> <- <-. eauto.
  - intros t' r Hrun Hall.
    destruct (owners_loop _ _ _ _ _ _) as [t2 [e|[pm jm]]] eqn:Hloop; [done|].
    injection Hrun as _ <-. simpl.
    apply owners_loop_inr in Hloop as (_ & _ & _ & Hnop & _).
    rewrite Hnop; [apply list_set_nil|].
    intros owner Hin. unfold in_package_scope.
    case_bool_decide as Hpkg; [|apply andb_false_r].
    specialize (Hall owner Hin). rewrite Hpkg in Hall.
    apply truthy_string_ne in Hne.
    change (truthy (Some name)) with (truthy name) in Hall. congruence.
Qed.

(** ** Ignored groups *)

Lemma wanted_groups_without_group ign g owner :
  g ∈ ign → wanted_groups ign (without_group g owner) = wanted_groups ign owner.
Proof.
  intros Hg. unfold wanted_groups, without_group. simpl. f_equal.
  rewrite list_filter_filter. apply list_filter_iff.
  intros grp. split; [by intros [? _]|].
  intros Hgrp. split; [done|]. intros Heq. apply Hgrp. by rewrite Heq.
Qed.

Lemma owner_step_without_group osc name ign g acc owner t :
  g ∈ ign →
  owner_step osc name ign acc (without_group g owner) t =
    owner_step osc name ign acc owner t.
Proof.
  intros Hg. destruct acc as [pm jm]. rewrite !owner_step_scopes.
  change (in_package_scope name (without_group g owner))
    with (in_package_scope name owner).
  change (in_project_scope (without_group g owner))
    with (in_project_scope owner).
  async_unfold. rewrite !scope_extend_eq, wanted_groups_without_group by done.
  simpl Owner.person.
  destruct (in_package_scope name owner).
  - destruct (join _); [done|].
    by rewrite !scope_extend_eq, wanted_groups_without_group by done.
  - by rewrite !scope_extend_eq, wanted_groups_without_group by done.
Qed.

Lemma owners_loop_without_group osc name ign g owners acc t :
  g ∈ ign →
  owners_loop osc name ign (without_group g <$> owners) acc t =
    owners_loop osc name ign owners acc t.
Proof.
  intros Hg. revert acc t.
  induction owners as [|owner owners IH]; intros acc t; [done|].
  rewrite fmap_cons, !owners_loop_cons, owner_step_without_group by done.
  destruct (owner_step osc name ign acc owner t) as [t1 [e|acc1]]; [done|].
  apply IH.
Qed.

(** C6: for a group name [g] in [groups_to_ignore], a call of
    [search_for_maintainers] issues no fetch of [g], and does what it
    would do had the owner-search response no reference to [g] at all:
    same log, same result or failure, whatever the group would resolve
    to. *)
Theorem ignored_group_contributes_nothing osc pkg pkg_name roles ign t g :
  g ∈ default [] ign →
  (∃ evs,
     (search_for_maintainers osc pkg pkg_name roles ign t).1 = t ++ evs
     ∧ FetchGroup g ∉ evs)
  ∧ @search_for_maintainers _
      (parsed_through (without_group_refs g) OwnerCollection_MetaMixin)
      osc pkg pkg_name roles ign t
    = search_for_maintainers osc pkg pkg_name roles ign t.
Proof.
  intros Hg. rewrite !search_for_maintainers_eq.
  destruct (resolve_pkg_name pkg pkg_name t).2 as [e|name].
  { split; [|done]. exists []. simpl. split; [by rewrite app_nil_r|].
    apply not_elem_of_nil. }
  cbv zeta. destruct (api_response osc t _) as [descr|resp].
  { split; [|done]. eexists. simpl. split; [done|].
    by intros [=]%list_elem_of_singleton. }
  unfold parsed_through at 1. simpl from_response at 2.
  destruct (from_response resp) as [e|owners].
  { split; [|done]. eexists. simpl. split; [done|].
    by intros [=]%list_elem_of_singleton. }
  simpl OwnerCollection.owner at 2.
  rewrite owners_loop_without_group by done.
  split; [|done].
  match goal with |- context [owners_loop ?o ?n ?i ?l ?a ?t1] =>
    destruct (owners_loop_trace o n i l a t1) as (evs & Hevs & Hfetch);
    destruct (owners_loop o n i l a t1) as [t2 [e|[pm jm]]]
  end; simpl in Hevs; subst t2; simpl;
    (eexists; split; [by rewrite <- app_assoc|];
     intros [[=]|Hin]%elem_of_cons;
     rewrite Forall_forall in Hfetch;
     destruct (Hfetch _ Hin) as (g' & [= <-] & Hg'); done).
Qed.

(** * Further properties *)

(** ** Package.meta *)

Lemma truthy_value_true {A} `{Truthy A} (x : A) :
  truthy x = true → truthy_value (Some x) = Some x.
Proof. intros Hx. simpl. by rewrite Hx. Qed.

Lemma Package_meta_truthy p : truthy (Package.meta p) = true.
Proof. unfold Package.meta. by destruct (truthy_value _). Qed.

Lemma Package_meta_eq p :
  Package.meta p =
    mkElement "package" (<["name" := Package.name p]> ∅) None
      ([mkElement "title" ∅ (Some (Package.title p)) [];
        mkElement "description" ∅ (Some (Package.description p)) []]
       ++ match truthy_value (Package.scmsync p) with
          | Some url => [mkElement "scmsync" ∅ (Some url) []]
          | None => []
          end).
Proof. unfold Package.meta. by destruct (truthy_value _). Qed.

(** X1: the document of a package tells the package: two packages have
    the same [meta] exactly when they agree on name, title and description
    and on their [scmsync], where an empty [scmsync] counts as none. *)
Theorem Package_meta_inj p q :
  Package.meta p = Package.meta q ↔
    Package.name p = Package.name q
    ∧ Package.title p = Package.title q
    ∧ Package.description p = Package.description q
    ∧ truthy_value (Package.scmsync p) = truthy_value (Package.scmsync q).
Proof.
  rewrite !Package_meta_eq. split.
  - intros Heq.
    pose proof (f_equal (λ e, attrib e !! "name") Heq) as Hattr.
    pose proof (f_equal children Heq) as Hch. simpl in Hattr, Hch.
    rewrite !lookup_insert_eq in Hattr.
    injection Hattr as Hname. injection Hch as Htitle Hdescr Hscm.
    split_and!; try done.
    destruct (truthy_value (Package.scmsync p)),
      (truthy_value (Package.scmsync q)); congruence.
  - intros (-> & -> & -> & ->). done.
Qed.

(** ** send_meta, further *)

(** X2: sending a package by its records and sending it by the names and
    the document of these records is the same call, when the two names
    are not empty; likewise for a project, when its document has
    children. *)
Theorem send_meta_records_or_names osc (prj : Project.t) (pkg : Package.t) t :
  Project.name prj ≠ "" →
  (Package.name pkg ≠ "" →
   send_meta ET_tostring osc (Some prj) None None (Some pkg) None None t =
     send_meta ET_tostring osc None (Some (Project.name prj)) None None
       (Some (Package.name pkg)) (Some (Package.meta pkg)) t)
  ∧ (truthy (meta prj) = true →
     send_meta ET_tostring osc (Some prj) None None None None None t =
       send_meta ET_tostring osc None (Some (Project.name prj))
         (Some (meta prj)) None None None t).
Proof.
  intros Hprj%truthy_string_ne. split.
  - intros Hpkg%truthy_string_ne. unfold send_meta. cbv zeta.
    rewrite (truthy_value_true (Project.name prj)) by done.
    rewrite (truthy_value_true (Package.name pkg)) by done.
    rewrite (truthy_value_true (Package.meta pkg))
      by apply Package_meta_truthy.
    reflexivity.
  - intros Hdoc. unfold send_meta. cbv zeta.
    rewrite (truthy_value_true (Project.name prj)) by done.
    rewrite (truthy_value_true (meta prj)) by done.
    reflexivity.
Qed.

(** X3: a document without children is false, and [send_meta] treats it as
    not supplied: a package document without children is not sent, and
    with no project document either the call fails with the assertion
    error before any request. *)
Theorem send_meta_childless_document osc prj prj_name prj_meta pkg pkg_name doc t :
  children doc = [] →
  send_meta ET_tostring osc prj prj_name prj_meta pkg pkg_name (Some doc) t =
    send_meta ET_tostring osc prj prj_name prj_meta pkg pkg_name None t
  ∧ send_meta ET_tostring osc None prj_name None pkg pkg_name (Some doc) t =
      (t, inl (AssertionError "Invalid parameter combination")).
Proof.
  intros Hdoc.
  assert (truthy_value (Some doc) = None) as Hnone.
  { simpl. unfold truthy, Element_truthy. by rewrite Hdoc. }
  unfold send_meta. cbv zeta. rewrite Hnone. split; [done|].
  change (truthy_value (@None Project.t)) with (@None Project.t).
  change (truthy_value (@None Element)) with (@None Element). cbv iota.
  by destruct (truthy_value prj_name), (truthy_value pkg_name).
Qed.

(** X4: a [prj] record decides the target: with it, [prj_name],
    [prj_meta], [pkg_name] and [pkg_meta] are not looked at, and the one
    request is a PUT of the document of [pkg], or of [prj] when there is
    no [pkg], to [/source/{prj.name}[/{pkg.name}]/_meta]. *)
Theorem send_meta_prj_record_decides
    osc (prj : Project.t) prj_name prj_meta pkg pkg_name pkg_meta t :
  let req :=
    match pkg with
    | Some pkg =>
        mkRequest ("/source/" +:+ Project.name prj +:+ "/" +:+
                     Package.name pkg +:+ "/_meta")
          (Some "PUT") None (Some (ET_tostring (Package.meta pkg)))
    | None =>
        mkRequest ("/source/" +:+ Project.name prj +:+ "/_meta")
          (Some "PUT") None (Some (ET_tostring (meta prj)))
    end in
  send_meta ET_tostring osc (Some prj) prj_name prj_meta pkg pkg_name
    pkg_meta t
  = (t ++ [ApiRequest req],
     match api_response osc t req with
     | inl descr => inl (TransportError descr)
     | inr _ => inr ()
     end).
Proof.
  intros req. unfold send_meta. cbv zeta.
  rewrite (truthy_value_dataclass (Some prj)) by done.
  rewrite (truthy_value_dataclass pkg) by done.
  destruct pkg as [q|]; subst req; cbv iota.
  - etrans; [|apply bind_api_request_unit].
    rewrite <- !string_app_assoc. reflexivity.
  - etrans; [|apply bind_api_request_unit].
    rewrite <- !string_app_assoc. reflexivity.
Qed.

(** ** delete, further *)

Lemma delete_eq osc prj pkg force t :
  delete osc prj pkg force t =
    let req :=
      mkRequest ("/source/" +:+ prj_name_of prj +:+ "/" +:+
                   from_option pkg_name_of "" pkg)
        (Some "DELETE") (if force then Some {[ "force" := "1" ]} else None)
        None in
    (t ++ [ApiRequest req],
     match api_response osc t req with
     | inl descr => inl (TransportError descr)
     | inr _ => inr ()
     end).
Proof.
  unfold delete. cbv zeta. rewrite delete_route_eq.
  apply bind_api_request_unit.
Qed.

(** X5: [delete] looks at names only: a record and its name are the same
    argument, for the project and for the package, and an empty package
    name is no package. *)
Theorem delete_by_record_or_name osc prj pkg force t :
  delete osc prj pkg force t =
    delete osc (inr (prj_name_of prj))
      ((λ q, inr (pkg_name_of q)) <$> pkg) force t
  ∧ delete osc prj (Some (inr "")) force t = delete osc prj None force t.
Proof.
  rewrite !delete_eq. split; [|done].
  by destruct pkg as [[q|s]|].
Qed.

(** ** fetch_file_list, further *)

Lemma sublist_omap_names entries :
  sublist (File.name <$> omap File_of_Entry entries)
          (omap _Directory.Entry.name entries).
Proof.
  induction entries as [|entry entries IH]; simpl; [constructor|].
  destruct (File_of_Entry entry) as [f|] eqn:Hf.
  - apply File_of_Entry_Some in Hf as (-> & _). simpl.
    by apply sublist_skip.
  - destruct (_Directory.Entry.name entry); [by apply sublist_cons|done].
Qed.

Lemma length_omap_le {A B} (f : A → option B) (l : list A) :
  (length (omap f l) ≤ length l)%nat.
Proof.
  induction l as [|x l IH]; [done|].
  change (omap f (x :: l))
    with (match f x with Some y => y :: omap f l | None => omap f l end).
  destruct (f x); simpl; [by apply le_n_S | by apply le_S].
Qed.

(** X6: when the transport answers and the listing parses,
    [fetch_file_list] returns a list, and a [File] is in it exactly when
    some entry of the listing has its four values and none of the four is
    an empty string or zero. *)
Theorem fetch_file_list_files osc prj pkg t resp directory :
  api_response osc t
    (mkRequest ("/source/" +:+ prj_name_of prj +:+ "/" +:+ pkg_name_of pkg)
       None None None) = inr resp →
  from_response resp = inr directory →
  ∃ files,
    (fetch_file_list osc prj pkg t).2 = inr files
    ∧ ∀ f, f ∈ files ↔
        (∃ entry, entry ∈ _Directory.entry directory ∧ entry_of_file entry f)
        ∧ File.name f ≠ "" ∧ File.md5_sum f ≠ ""
        ∧ File.size f ≠ 0 ∧ File.mtime f ≠ 0.
Proof.
  intros Hresp Hparse. rewrite fetch_file_list_eq. cbv zeta.
  rewrite Hresp, Hparse. eexists. split; [done|].
  intros f. rewrite list_elem_of_omap. unfold entry_of_file. split.
  - intros (entry & Hin & Hf).
    apply File_of_Entry_Some in Hf as (? & ? & ? & ? & ? & ? & ? & ?).
    split; [by exists entry|done].
  - intros ((entry & Hin & Hn & Hm & Hs & Ht) & ? & ? & ? & ?).
    exists entry. split; [done|]. apply File_of_Entry_Some. done.
Qed.

(** X7: the files come in the order of the listing, at most one for each
    entry: their names are a sublist of the names of the entries. *)
Theorem fetch_file_list_order osc prj pkg t t' files resp directory :
  api_response osc t
    (mkRequest ("/source/" +:+ prj_name_of prj +:+ "/" +:+ pkg_name_of pkg)
       None None None) = inr resp →
  from_response resp = inr directory →
  fetch_file_list osc prj pkg t = (t', inr files) →
  sublist (File.name <$> files)
          (omap _Directory.Entry.name (_Directory.entry directory))
  ∧ (length files ≤ length (_Directory.entry directory))%nat.
Proof.
  intros Hresp Hparse. rewrite fetch_file_list_eq. cbv zeta.
  rewrite Hresp, Hparse. intros [= _ <-]. split.
  - apply sublist_omap_names.
  - apply length_omap_le.
Qed.

(** ** search_for_maintainers, further *)

Lemma elem_of_flat_map {A B} (f : A → list B) (l : list A) (y : B) :
  y ∈ flat_map f l ↔ ∃ x, x ∈ l ∧ y ∈ f x.
Proof.
  rewrite list_elem_of_In, in_flat_map. split.
  - intros (x & Hx & Hy). exists x. by rewrite !list_elem_of_In.
  - intros (x & Hx & Hy). exists x. by rewrite <- !list_elem_of_In.
Qed.

Lemma elem_of_members_of res p :
  p ∈ members_of res ↔ ∃ grp, grp ∈ res ∧ member_of_group grp p.
Proof.
  unfold members_of, member_of_group.
  rewrite elem_of_app, !elem_of_flat_map. split.
  - intros [(grp & Hgrp & Hp)|(grp & Hgrp & Hp)];
      apply list_elem_of_fmap in Hp as (m & -> & Hm);
      exists grp; (split; [done|]); exists m; auto.
  - intros (grp & Hgrp & m & [Hm|Hm] & ->); [left|right];
      exists grp; (split; [done|]); apply list_elem_of_fmap; by exists m.
Qed.

Lemma join_inr {A} (rs : list (Exception + A)) res :
  join rs = inr res → rs = inr <$> res.
Proof.
  revert res. induction rs as [|[e|a] rs IH]; intros res; simpl.
  - by intros [= <-].
  - done.
  - destruct (join rs) as [e|l]; [done|]. intros [= <-]. simpl.
    by rewrite (IH l).
Qed.

Lemma group_outcomes_stable osc names t g r :
  g ∈ names → (∀ t', group_response osc t' g = r) →
  r ∈ group_outcomes osc names t.
Proof.
  intros Hg Hstable. revert t.
  induction names as [|g' names IH]; intros t; simpl.
  - by apply not_elem_of_nil in Hg.
  - apply elem_of_cons in Hg as [<-|Hg].
    + rewrite Hstable. apply list_elem_of_here.
    + apply list_elem_of_further. by apply IH.
Qed.

(** A batch that succeeds has fetched every wanted group. *)
Lemma scope_extend_inr_res osc ign owner l t t' l' :
  scope_extend osc ign owner true l t = (t', inr l') →
  ∃ res,
    group_outcomes osc (wanted_groups ign owner) t = inr <$> res
    ∧ l' = l ++ Owner.person owner ++ members_of res.
Proof.
  rewrite scope_extend_eq.
  destruct (join _) as [e|res] eqn:Hjoin; [done|]. intros [= _ <-].
  exists res. split; [by apply join_inr|done].
Qed.

Lemma scope_extend_members osc ign owner l t t' l' g grp p :
  scope_extend osc ign owner true l t = (t', inr l') →
  g ∈ wanted_groups ign owner →
  (∀ t'', group_response osc t'' g = inr grp) →
  member_of_group grp p → p ∈ l'.
Proof.
  intros (res & Hres & ->)%scope_extend_inr_res Hg Hstable Hmem.
  rewrite !elem_of_app. right. right.
  apply elem_of_members_of. exists grp. split; [|done].
  pose proof (group_outcomes_stable osc _ t g _ Hg Hstable) as Hin.
  rewrite Hres in Hin.
  apply list_elem_of_fmap in Hin as (grp' & [= ->] & Hin). done.
Qed.

Lemma owner_step_inv osc name ign pm jm owner t t' pm' jm' :
  owner_step osc name ign (pm, jm) owner t = (t', inr (pm', jm')) →
  ∃ t1,
    scope_extend osc ign owner (in_package_scope name owner) pm t
      = (t1, inr pm')
    ∧ scope_extend osc ign owner (in_project_scope owner) jm t1
      = (t', inr jm').
Proof.
  rewrite owner_step_scopes. async_unfold.
  destruct (scope_extend osc ign owner (in_package_scope name owner) pm t)
    as [t1 [e|pm1]]; [done|].
  destruct (scope_extend osc ign owner (in_project_scope owner) jm t1)
    as [t2 [e|jm1]] eqn:H2; [done|].
  intros [= -> -> ->]. eauto.
Qed.

Lemma owners_loop_members osc name ign owners pm jm t t' pm' jm' owner g grp p :
  owners_loop osc name ign owners (pm, jm) t = (t', inr (pm', jm')) →
  owner ∈ owners →
  g ∈ wanted_groups ign owner →
  (∀ t'', group_response osc t'' g = inr grp) →
  member_of_group grp p →
  (in_package_scope name owner = true → p ∈ pm')
  ∧ (in_project_scope owner = true → p ∈ jm').
Proof.
  intros Hloop Hin Hg Hstable Hmem. revert pm jm t Hloop.
  induction owners as [|o owners IH]; intros pm jm t.
  - by apply not_elem_of_nil in Hin.
  - rewrite owners_loop_cons.
    destruct (owner_step osc name ign (pm, jm) o t)
      as [t1 [e|[pm1 jm1]]] eqn:Hstep; [done|].
    intros Hloop. apply elem_of_cons in Hin as [<-|Hin]; [|by eapply IH].
    apply owners_loop_inr in Hloop as (Hpm & Hjm & _).
    apply owner_step_inv in Hstep as (t0 & Hs1 & Hs2).
    split; intros Hscope.
    + rewrite Hscope in Hs1. apply Hpm.
      by eapply scope_extend_members.
    + rewrite Hscope in Hs2. apply Hjm.
      by eapply scope_extend_members.
Qed.

(** ** The log of a search *)

Lemma scope_extend_log osc ign owner in_scope l t :
  (scope_extend osc ign owner in_scope l t).1 =
    t ++ (FetchGroup <$> (if in_scope then wanted_groups ign owner else [])).
Proof.
  rewrite scope_extend_eq. destruct in_scope; simpl; [done|].
  by rewrite app_nil_r.
Qed.

Lemma owner_step_log osc name ign acc owner t :
  ∃ names,
    (owner_step osc name ign acc owner t).1 = t ++ (FetchGroup <$> names)
    ∧ names `prefix_of` expected_fetches name ign owner
    ∧ (∀ acc', (owner_step osc name ign acc owner t).2 = inr acc' →
         names = expected_fetches name ign owner).
Proof.
  destruct acc as [pm jm]. rewrite owner_step_scopes. async_unfold.
  pose proof (scope_extend_log osc ign owner (in_package_scope name owner)
                pm t) as H1.
  destruct (scope_extend osc ign owner (in_package_scope name owner) pm t)
    as [t1 [e|pm1]]; simpl in H1; subst t1.
  { eexists. split; [done|]. split; [by apply prefix_app_r|done]. }
  pose proof (scope_extend_log osc ign owner (in_project_scope owner) jm
                (t ++ (FetchGroup <$>
                   (if in_package_scope name owner
                    then wanted_groups ign owner else [])))) as H2.
  destruct (scope_extend osc ign owner (in_project_scope owner) jm _)
    as [t2 [e|jm1]]; simpl in H2; subst t2;
    exists (expected_fetches name ign owner); unfold expected_fetches;
    (split; [by rewrite fmap_app, app_assoc|done]).
Qed.

Lemma owners_loop_log osc name ign owners acc t :
  ∃ names,
    (owners_loop osc name ign owners acc t).1 = t ++ (FetchGroup <$> names)
    ∧ names `prefix_of` flat_map (expected_fetches name ign) owners
    ∧ (∀ acc', (owners_loop osc name ign owners acc t).2 = inr acc' →
         names = flat_map (expected_fetches name ign) owners).
Proof.
  revert acc t. induction owners as [|owner owners IH]; intros acc t.
  - exists []. simpl. by rewrite app_nil_r.
  - rewrite owners_loop_cons.
    destruct (owner_step_log osc name ign acc owner t)
      as (names1 & H1 & Hpre1 & Hall1).
    destruct (owner_step osc name ign acc owner t) as [t1 [e|acc1]];
      simpl in H1; subst t1.
    { exists names1. simpl. split; [done|]. split; [by apply prefix_app_r|done]. }
    rewrite (Hall1 acc1 eq_refl).
    destruct (IH acc1 (t ++ (FetchGroup <$> expected_fetches name ign owner)))
      as (names2 & H2 & Hpre2 & Hall2).
    exists (expected_fetches name ign owner ++ names2). simpl.
    rewrite H2. split; [by rewrite fmap_app, app_assoc|].
    split; [by apply prefix_app|].
    intros acc' Hacc. by rewrite (Hall2 acc' Hacc).
Qed.

(** ** Owner records that pass neither test *)

Lemma relevant_false name owner :
  relevant name owner = false ↔
    truthy (Owner.project owner) = false
    ∨ (truthy (Owner.package owner) = true
       ∧ Owner.package owner ≠ Some name).
Proof.
  unfold relevant, in_package_scope, in_project_scope.
  destruct (truthy (Owner.project owner)); simpl.
  - rewrite orb_false_iff, bool_decide_eq_false, negb_false_iff.
    split; [intros [? ?]; by right|intros [?|[? ?]]; done].
  - split; [by left|done].
Qed.

Lemma owner_step_irrelevant osc name ign acc owner t :
  relevant name owner = false →
  owner_step osc name ign acc owner t = (t, inr acc).
Proof.
  unfold relevant. intros [Hpkg Hprj]%orb_false_iff.
  destruct acc as [pm jm]. rewrite owner_step_scopes, Hpkg, Hprj.
  reflexivity.
Qed.

Lemma owners_loop_only_relevant osc name ign owners acc t :
  owners_loop osc name ign
    (filter (λ owner, relevant name owner = true) owners) acc t
  = owners_loop osc name ign owners acc t.
Proof.
  revert acc t. induction owners as [|owner owners IH]; intros acc t;
    [done|].
  destruct (relevant name owner) eqn:Hrel.
  - rewrite filter_cons_True by done. rewrite !owners_loop_cons.
    destruct (owner_step osc name ign acc owner t) as [t1 [e|acc1]];
      [done|apply IH].
  - rewrite filter_cons_False by by rewrite Hrel.
    rewrite owners_loop_cons, owner_step_irrelevant by done. apply IH.
Qed.

(** ** search_for_maintainers: further theorems *)

(** X8: when the owner search fails, or its answer does not parse,
    [search_for_maintainers] raises that failure, as a transport error in
    the first case, after its one request and without fetching a group. *)
Theorem search_for_maintainers_owner_search_fails
    osc pkg pkg_name roles ign t name :
  (resolve_pkg_name pkg pkg_name t).2 = inr name →
  let req := owner_search_request name roles in
  (∀ descr, api_response osc t req = inl descr →
     search_for_maintainers osc pkg pkg_name roles ign t
       = (t ++ [ApiRequest req], inl (TransportError descr)))
  ∧ (∀ resp e, api_response osc t req = inr resp →
       @from_response OwnerCollection.t _ resp = inl e →
       search_for_maintainers osc pkg pkg_name roles ign t
         = (t ++ [ApiRequest req], inl e)).
Proof.
  intros Hname req. rewrite search_for_maintainers_eq, Hname. cbv zeta.
  fold req. split.
  - by intros descr ->.
  - by intros resp e -> ->.
Qed.

(** X9: a call by package record is the call by the name of the record,
    when that name is not empty; and an empty [pkg_name] beside a record
    is no [pkg_name]. *)
Theorem search_for_maintainers_record_or_name osc (pkg : Package.t) roles ign t :
  Package.name pkg ≠ "" →
  search_for_maintainers osc (Some pkg) None roles ign t =
    search_for_maintainers osc None (Some (Package.name pkg)) roles ign t
  ∧ search_for_maintainers osc (Some pkg) (Some "") roles ign t =
      search_for_maintainers osc (Some pkg) None roles ign t.
Proof.
  intros Hname%truthy_string_ne.
  rewrite !search_for_maintainers_eq, !resolve_pkg_name_eq. simpl.
  by rewrite Hname.
Qed.

Lemma search_for_maintainers_first_event osc pkg pkg_name roles ign t name :
  (resolve_pkg_name pkg pkg_name t).2 = inr name →
  ∃ evs,
    (search_for_maintainers osc pkg pkg_name roles ign t).1 =
      t ++ ApiRequest (owner_search_request name roles) :: evs.
Proof.
  intros Hname. rewrite search_for_maintainers_eq, Hname. cbv zeta.
  destruct (api_response osc t _) as [descr|resp]; [by exists []|].
  destruct (from_response resp) as [e|owners]; [by exists []|].
  match goal with |- context [owners_loop ?o ?n ?i ?l ?a ?t1] =>
    destruct (owners_loop_trace o n i l a t1) as (evs & Hevs & _);
    destruct (owners_loop o n i l a t1) as [t2 [e|[pm jm]]]
  end; simpl in Hevs; subst t2; exists evs; simpl; by rewrite <- app_assoc.
Qed.

(** X10: [search_for_maintainers] asks nothing at all exactly when it is
    given neither a non-empty [pkg_name] nor a [pkg] record. *)
Theorem search_for_maintainers_silent_iff osc pkg pkg_name roles ign t :
  (search_for_maintainers osc pkg pkg_name roles ign t).1 = t ↔
    truthy pkg_name = false ∧ pkg = None.
Proof.
  split.
  - intros Hsilent.
    destruct (resolve_pkg_name pkg pkg_name t).2 as [e|name] eqn:Hres.
    + rewrite resolve_pkg_name_eq in Hres. simpl in Hres.
      destruct (truthy_value_case pkg_name) as [(n & _ & _ & Hn)|[Hf Hn]];
        rewrite Hn in Hres; [done|].
      by destruct pkg.
    + destruct (search_for_maintainers_first_event osc pkg pkg_name roles
                  ign t name Hres) as (evs & Hevs).
      rewrite Hsilent in Hevs.
      apply (f_equal length) in Hevs. rewrite length_app in Hevs.
      simpl in Hevs. lia.
  - intros [Hname ->]. rewrite search_for_maintainers_eq.
    rewrite resolve_pkg_name_eq. simpl.
    apply truthy_value_None in Hname. by rewrite Hname.
Qed.


(** X12: owner records without project, and owner records of another
    package than the queried one, are skipped: the call does what it
    would do had the response only the other records. *)
Theorem search_for_maintainers_skips_irrelevant
    osc pkg pkg_name roles ign t name :
  (resolve_pkg_name pkg pkg_name t).2 = inr name →
  @search_for_maintainers _
      (parsed_through (only_relevant name) OwnerCollection_MetaMixin)
      osc pkg pkg_name roles ign t
    = search_for_maintainers osc pkg pkg_name roles ign t
  ∧ ∀ owner,
      relevant name owner = false ↔
        truthy (Owner.project owner) = false
        ∨ (truthy (Owner.package owner) = true
           ∧ Owner.package owner ≠ Some name).
Proof.
  intros Hname. split; [|intros owner; apply relevant_false].
  rewrite !search_for_maintainers_eq, Hname. cbv zeta.
  destruct (api_response osc t _) as [descr|resp]; [done|].
  unfold parsed_through at 1. simpl from_response at 1.
  destruct (from_response resp) as [e|owners]; [done|].
  simpl OwnerCollection.owner at 1.
  by rewrite owners_loop_only_relevant.
Qed.

(** X13: the log of a call whose owner search is answered and parsed: the
    owner-search request, then group fetches only, in the order of the
    owner records and of their group references, one for every reference
    that is not ignored of every record that passes a test, repeated
    references included.  A call that returns has made all of them; a call
    that fails has made the first of them. *)
Theorem search_for_maintainers_log
    osc pkg pkg_name roles ign t name resp owners :
  (resolve_pkg_name pkg pkg_name t).2 = inr name →
  api_response osc t (owner_search_request name roles) = inr resp →
  from_response resp = inr owners →
  let all_fetches :=
    flat_map (expected_fetches name (default [] ign))
      (OwnerCollection.owner owners) in
  ∃ names,
    (search_for_maintainers osc pkg pkg_name roles ign t).1 =
      t ++ ApiRequest (owner_search_request name roles)
             :: (FetchGroup <$> names)
    ∧ names `prefix_of` all_fetches
    ∧ (∀ r, (search_for_maintainers osc pkg pkg_name roles ign t).2 = inr r →
         names = all_fetches).
Proof.
  intros Hname Hresp Hparse all_fetches.
  rewrite (search_for_maintainers_loop _ _ _ _ _ _ _ _ _ Hname Hresp Hparse).
  match goal with |- context [owners_loop ?o ?n ?i ?l ?a ?t1] =>
    destruct (owners_loop_log o n i l a t1) as (names & Hlog & Hpre & Hall);
    destruct (owners_loop o n i l a t1) as [t2 [e|[pm jm]]]
  end; simpl in Hlog; subst t2; exists names; simpl;
    (split_and!; [by rewrite <- app_assoc|done|]).
  - done.
  - intros r _. by eapply Hall.
Qed.

(** X14: when a call returns, the maintainers and the plain members of
    every group that is not ignored, that an owner record with a project
    refers to and that the service resolves to [grp] whenever asked, are
    in the package list if the record has the queried package, and in the
    project list if it has no package. *)
Theorem search_for_maintainers_group_members
    osc pkg pkg_name roles ign t t' r name resp owners owner ref grp :
  (resolve_pkg_name pkg pkg_name t).2 = inr name →
  api_response osc t (owner_search_request name roles) = inr resp →
  from_response resp = inr owners →
  search_for_maintainers osc pkg pkg_name roles ign t = (t', inr r) →
  owner ∈ OwnerCollection.owner owners →
  truthy (Owner.project owner) = true →
  ref ∈ Owner.group owner →
  Group.name ref ∉ default [] ign →
  (∀ t'', group_response osc t'' (Group.name ref) = inr grp) →
  ∀ m, m ∈ UserGroup.maintainer grp
       ∨ m ∈ PersonList.person (UserGroup.person grp) →
    (Owner.package owner = Some name →
     Person2_of_userid (Person.userid m) ∈ PackageMaintainers.package r)
    ∧ (truthy (Owner.package owner) = false →
       Person2_of_userid (Person.userid m) ∈ PackageMaintainers.project r).
Proof.
  intros Hname Hresp Hparse Hrun Hin Hprj Href Hign Hstable m Hm.
  rewrite (search_for_maintainers_loop _ _ _ _ _ _ _ _ _ Hname Hresp Hparse)
    in Hrun.
  destruct (owners_loop _ _ _ _ _ _) as [t2 [e|[pm jm]]] eqn:Hloop; [done|].
  injection Hrun as _ <-. simpl.
  assert (Group.name ref ∈ wanted_groups (default [] ign) owner) as Hwanted.
  { apply elem_of_wanted_groups. eauto. }
  assert (member_of_group grp (Person2_of_userid (Person.userid m))) as Hmem
    by by exists m.
  destruct (owners_loop_members _ _ _ _ _ _ _ _ _ _ owner _ grp _ Hloop Hin
              Hwanted Hstable Hmem) as [Hp Hj].
  split; intros Hpkg; apply elem_of_list_set.
  - apply Hp. by apply in_package_scope_true.
  - apply Hj. by apply in_project_scope_true.
Qed.

(** ** Which fetch fails a search *)

Lemma fetch_log_0 t names : fetch_log t names 0 = t.
Proof. unfold fetch_log. simpl. apply app_nil_r. Qed.

Lemma fetch_log_S t g names i :
  fetch_log t (g :: names) (S i) = fetch_log (t ++ [FetchGroup g]) names i.
Proof. unfold fetch_log. simpl. by rewrite <- app_assoc. Qed.

(** The outcome number [i] of a row of fetches is the answer of the
    service at the log of fetch number [i]. *)
Lemma group_outcomes_lookup osc names t i :
  group_outcomes osc names t !! i
  = (λ g, group_response osc (fetch_log t names i) g) <$> names !! i.
Proof.
  revert t i. induction names as [|g names IH]; intros t i; [done|].
  destruct i as [|i]; simpl.
  - by rewrite fetch_log_0.
  - by rewrite IH, fetch_log_S.
Qed.

Lemma group_outcomes_app osc names1 names2 t :
  group_outcomes osc (names1 ++ names2) t
  = group_outcomes osc names1 t
    ++ group_outcomes osc names2 (t ++ (FetchGroup <$> names1)).
Proof.
  revert t. induction names1 as [|g names1 IH]; intros t; simpl.
  - by rewrite app_nil_r.
  - by rewrite IH, <- app_assoc.
Qed.

Lemma first_failure_app {A} (rs1 rs2 : list (Exception + A)) :
  first_failure (rs1 ++ rs2)
  = match first_failure rs1 with
    | Some e => Some e
    | None => first_failure rs2
    end.
Proof. induction rs1 as [|[e|a] rs1 IH]; simpl; done. Qed.

Lemma join_first_failure {A} (rs : list (Exception + A)) :
  match first_failure rs with
  | Some e => join rs = inl e
  | None => ∃ res, join rs = inr res
  end.
Proof.
  induction rs as [|[e|a] rs IH]; simpl; [by eexists|done|].
  destruct (first_failure rs) as [e|].
  - by rewrite IH.
  - destruct IH as [res ->]. by eexists.
Qed.



Lemma first_failure_None {A} (rs : list (Exception + A)) :
  (∀ j r, rs !! j = Some r → ∃ a, r = inr a) → first_failure rs = None.
Proof.
  induction rs as [|[e|a] rs IH]; simpl; [done| |].
  - intros Hall. by destruct (Hall 0%nat (inl e) eq_refl).
  - intros Hall. apply IH. intros j r Hj. by apply (Hall (S j)).
Qed.

(** A turn of the loop fails exactly when one of its fetches fails. *)
Lemma scope_extend_outcome osc ign owner (in_scope : bool) l t :
  match first_failure
          (group_outcomes osc
             (if in_scope then wanted_groups ign owner else []) t) with
  | Some e => (scope_extend osc ign owner in_scope l t).2 = inl e
  | None => ∃ l', (scope_extend osc ign owner in_scope l t).2 = inr l'
  end.
Proof.
  rewrite scope_extend_eq. destruct in_scope; simpl; [|by eexists].
  pose proof (join_first_failure
                (group_outcomes osc (wanted_groups ign owner) t)) as Hjoin.
  destruct (first_failure _) as [e|].
  - by rewrite Hjoin.
  - destruct Hjoin as [res ->]. by eexists.
Qed.

Lemma owner_step_outcome osc name ign acc owner t :
  match first_failure
          (group_outcomes osc (expected_fetches name ign owner) t) with
  | Some e => (owner_step osc name ign acc owner t).2 = inl e
  | None => ∃ acc', (owner_step osc name ign acc owner t).2 = inr acc'
  end.
Proof.
  destruct acc as [pm jm]. unfold expected_fetches.
  rewrite group_outcomes_app, first_failure_app.
  rewrite owner_step_scopes. async_unfold.
  pose proof (scope_extend_outcome osc ign owner
                (in_package_scope name owner) pm t) as H1.
  pose proof (scope_extend_log osc ign owner (in_package_scope name owner)
                pm t) as Hlog.
  destruct (scope_extend osc ign owner (in_package_scope name owner) pm t)
    as [t1 out1]. simpl in H1, Hlog. subst t1.
  destruct (first_failure _) as [e|].
  { by rewrite H1. }
  destruct H1 as [pm1 ->].
  pose proof (scope_extend_outcome osc ign owner (in_project_scope owner) jm
                (t ++ (FetchGroup <$>
                   (if in_package_scope name owner
                    then wanted_groups ign owner else [])))) as H2.
  destruct (scope_extend osc ign owner (in_project_scope owner) jm _)
    as [t2 out2]. simpl in H2.
  destruct (first_failure _) as [e|].
  - by rewrite H2.
  - destruct H2 as [jm1 ->]. by eexists.
Qed.

Lemma owners_loop_outcome osc name ign owners acc t :
  match first_failure
          (group_outcomes osc (flat_map (expected_fetches name ign) owners)
             t) with
  | Some e => (owners_loop osc name ign owners acc t).2 = inl e
  | None => ∃ acc', (owners_loop osc name ign owners acc t).2 = inr acc'
  end.
Proof.
  revert acc t. induction owners as [|owner owners IH]; intros acc t.
  - simpl. by eexists.
  - simpl flat_map. rewrite group_outcomes_app, first_failure_app.
    rewrite owners_loop_cons.
    pose proof (owner_step_outcome osc name ign acc owner t) as Hstep.
    destruct (owner_step_log osc name ign acc owner t)
      as (names & Hlog & _ & Hall).
    destruct (owner_step osc name ign acc owner t) as [t1 out1].
    simpl in Hstep, Hlog, Hall. subst t1.
    destruct (first_failure _) as [e|].
    { by rewrite Hstep. }
    destruct Hstep as [acc1 ->]. rewrite (Hall acc1 eq_refl). apply IH.
Qed.




(** C10: with a non-empty [pkg_name], a [pkg] record supplied as well is
    not looked at and the call does not fail on its arguments: it does
    what the call with [pkg_name] alone does, with the same log, result or
    failure; it makes the owner search for [pkg_name]; it returns a result
    when that search is answered and parsed and every group fetch that it
    makes succeeds; and when it fails, the failure is that of the owner
    search, of the parsing or of a group fetch. *)
Theorem search_for_maintainers_pkg_ignored osc (pkg : Package.t) name roles ign t :
  name ≠ "" →
  let req := owner_search_request name roles in
  let t1 := t ++ [ApiRequest req] in
  search_for_maintainers osc (Some pkg) (Some name) roles ign t =
    search_for_maintainers osc None (Some name) roles ign t
  ∧ (∃ evs,
       (search_for_maintainers osc (Some pkg) (Some name) roles ign t).1
       = t ++ ApiRequest req :: evs)
  ∧ (∀ resp owners,
       api_response osc t req = inr resp →
       from_response resp = inr owners →
       let fetches :=
         flat_map (expected_fetches name (default [] ign))
           (OwnerCollection.owner owners) in
       (∀ j g, fetches !! j = Some g →
          ∃ grp, group_response osc (fetch_log t1 fetches j) g = inr grp) →
       ∃ t' r,
         search_for_maintainers osc (Some pkg) (Some name) roles ign t
         = (t', inr r))
  ∧ (∀ t' e,
       search_for_maintainers osc (Some pkg) (Some name) roles ign t
       = (t', inl e) →
       (∃ descr, api_response osc t req = inl descr
                 ∧ e = TransportError descr)
       ∨ (∃ resp, api_response osc t req = inr resp
                  ∧ @from_response OwnerCollection.t _ resp = inl e)
       ∨ (∃ t'' g, group_response osc t'' g = inl e)).
Proof.
  intros Hname%truthy_string_ne req t1.
  assert (∀ p, (resolve_pkg_name p (Some name) t).2 = inr name) as Hres.
  { intros p. rewrite resolve_pkg_name_eq. simpl. by rewrite Hname. }
  split_and!.
  - by rewrite !search_for_maintainers_eq, !Hres.
  - by apply search_for_maintainers_first_event.
  - intros resp owners Hresp Hparse fetches Hall.
    rewrite (search_for_maintainers_loop _ _ _ _ _ _ _ _ _ (Hres _) Hresp
               Hparse).
    fold req t1.
    pose proof (owners_loop_outcome osc name (default [] ign)
                  (OwnerCollection.owner owners) ([], []) t1) as Houtcome.
    fold fetches in Houtcome.
    rewrite first_failure_None in Houtcome.
    + destruct (owners_loop _ _ _ _ _ _) as [t' out].
      destruct Houtcome as [[pm jm] Hout]. simpl in Hout. subst out.
      by eexists _, _.
    + intros j r. rewrite group_outcomes_lookup.
      destruct (fetches !! j) as [g|] eqn:Hg; [|done].
      simpl. intros [= <-]. destruct (Hall j g Hg) as [grp ->]. by exists grp.
  - intros t' e. rewrite search_for_maintainers_eq, Hres. cbv zeta.
    fold req t1.
    destruct (api_response osc t req) as [descr|resp].
    { intros [= _ <-]. left. by exists descr. }
    destruct (from_response resp) as [e0|owners] eqn:Hparse.
    { intros [= _ <-]. right. left. by exists resp. }
    destruct (owners_loop _ _ _ _ _ _) as [t2 [e0|[pm jm]]] eqn:Hloop;
      [|done].
    intros [= _ <-].
    apply owners_loop_inl in Hloop as (o & t'' & g & _ & _ & _ & He).
    right. right. by exists t'', g.
Qed.

(** ** Where the persons of a result come from *)

Lemma scope_extend_sound_at osc ign owner in_scope l t t' l' p :
  scope_extend osc ign owner in_scope l t = (t', inr l') →
  p ∈ l' → p ∈ l ∨ (in_scope = true ∧ named_at osc ign owner t p).
Proof.
  destruct in_scope; [|rewrite scope_extend_eq; intros [= _ <-]; auto].
  intros (res & Hres & ->)%scope_extend_inr_res.
  rewrite !elem_of_app. intros [?|[?|Hp]]; [by left|right..].
  - split; [done|]. by left.
  - split; [done|]. right.
    apply elem_of_members_of in Hp as (grp & Hgrp & Hmem).
    apply list_elem_of_lookup in Hgrp as [i Hi].
    assert (group_outcomes osc (wanted_groups ign owner) t !! i
            = Some (inr grp)) as Hout.
    { by rewrite Hres, list_lookup_fmap, Hi. }
    rewrite group_outcomes_lookup in Hout.
    destruct (wanted_groups ign owner !! i) as [g|] eqn:Hg; [|done].
    simpl in Hout. injection Hout as Hout.
    by exists i, g, grp.
Qed.

Lemma owners_loop_sound_at osc name ign owners pm jm t t' pm' jm' :
  owners_loop osc name ign owners (pm, jm) t = (t', inr (pm', jm')) →
  (∀ p, p ∈ pm' →
     p ∈ pm
     ∨ ∃ pre owner post,
         owners = pre ++ owner :: post
         ∧ in_package_scope name owner = true
         ∧ named_at osc ign owner
             (t ++ (FetchGroup <$> flat_map (expected_fetches name ign) pre))
             p)
  ∧ (∀ p, p ∈ jm' →
       p ∈ jm
       ∨ ∃ pre owner post,
           owners = pre ++ owner :: post
           ∧ in_project_scope owner = true
           ∧ named_at osc ign owner
               (t ++ (FetchGroup <$>
                  flat_map (expected_fetches name ign) pre
                  ++ (if in_package_scope name owner
                      then wanted_groups ign owner else [])))
               p).
Proof.
  revert pm jm t. induction owners as [|owner owners IH]; intros pm jm t.
  - intros [= -> -> ->]. split; auto.
  - rewrite owners_loop_cons.
    destruct (owner_step osc name ign (pm, jm) owner t)
      as [t1 [e|[pm1 jm1]]] eqn:Hstep; [done|].
    destruct (owner_step_log osc name ign (pm, jm) owner t)
      as (names & Hlog & _ & Hall).
    rewrite Hstep in Hlog, Hall. simpl in Hlog, Hall.
    rewrite (Hall _ eq_refl) in Hlog. subst t1.
    intros [Hp Hj]%IH.
    apply owner_step_inv in Hstep as (t0 & Hs1 & Hs2).
    pose proof (scope_extend_log osc ign owner (in_package_scope name owner)
                  pm t) as Hlog0.
    rewrite Hs1 in Hlog0. simpl in Hlog0. subst t0.
    split; intros p Hin.
    + destruct (Hp p Hin) as [Hin1|(pre & o & post & -> & Hscope & Hnamed)].
      * destruct (scope_extend_sound_at _ _ _ _ _ _ _ _ p Hs1 Hin1)
          as [?|[Hscope Hnamed]]; [by left|right].
        exists [], owner, owners. split_and!; try done.
        simpl. by rewrite app_nil_r.
      * right. exists (owner :: pre), o, post. split_and!; try done.
        simpl flat_map. by rewrite fmap_app, app_assoc.
    + destruct (Hj p Hin) as [Hin1|(pre & o & post & -> & Hscope & Hnamed)].
      * destruct (scope_extend_sound_at _ _ _ _ _ _ _ _ p Hs2 Hin1)
          as [?|[Hscope Hnamed]]; [by left|right].
        exists [], owner, owners. split_and!; try done.
      * right. exists (owner :: pre), o, post. split_and!; try done.
        simpl flat_map.
        by rewrite <- (app_assoc (expected_fetches name ign owner)),
          (fmap_app _ (expected_fetches name ign owner)), app_assoc.
Qed.

(** X11: nobody is in a result without a reason: each person of the
    package list is named by an owner record that has a project and the
    queried package, or is a maintainer or member of what a fetch of the
    call gave for a group that such a record refers to and that is not
    ignored, the fetch being the one made for that record, at its place in
    the log; likewise for the project list and the owner records with a
    project and no package. *)
Theorem search_for_maintainers_sound
    osc pkg pkg_name roles ign t t' r name resp owners :
  (resolve_pkg_name pkg pkg_name t).2 = inr name →
  api_response osc t (owner_search_request name roles) = inr resp →
  from_response resp = inr owners →
  search_for_maintainers osc pkg pkg_name roles ign t = (t', inr r) →
  let t1 := t ++ [ApiRequest (owner_search_request name roles)] in
  let fetches_for := flat_map (expected_fetches name (default [] ign)) in
  (∀ p, p ∈ PackageMaintainers.package r →
     ∃ pre owner post,
       OwnerCollection.owner owners = pre ++ owner :: post
       ∧ truthy (Owner.project owner) = true
       ∧ Owner.package owner = Some name
       ∧ named_at osc (default [] ign) owner
           (t1 ++ (FetchGroup <$> fetches_for pre)) p)
  ∧ (∀ p, p ∈ PackageMaintainers.project r →
       ∃ pre owner post,
         OwnerCollection.owner owners = pre ++ owner :: post
         ∧ truthy (Owner.project owner) = true
         ∧ truthy (Owner.package owner) = false
         ∧ named_at osc (default [] ign) owner
             (t1 ++ (FetchGroup <$>
                fetches_for pre
                ++ (if in_package_scope name owner
                    then wanted_groups (default [] ign) owner else [])))
             p).
Proof.
  intros Hname Hresp Hparse.
  rewrite (search_for_maintainers_loop _ _ _ _ _ _ _ _ _ Hname Hresp Hparse).
  destruct (owners_loop _ _ _ _ _ _) as [t2 [e|[pm jm]]] eqn:Hloop; [done|].
  intros [= _ <-] t1 fetches_for. simpl.
  apply owners_loop_sound_at in Hloop as [Hp Hj].
  split; intros p Hin; apply (proj1 (elem_of_list_set _ _)) in Hin.
  - destruct (Hp p Hin) as [?%not_elem_of_nil|(pre & o & post & Ho & Hs & Hn)];
      [done|].
    apply in_package_scope_true in Hs as [? ?]. by exists pre, o, post.
  - destruct (Hj p Hin) as [?%not_elem_of_nil|(pre & o & post & Ho & Hs & Hn)];
      [done|].
    apply in_project_scope_true in Hs as [? ?]. by exists pre, o, post.
Qed.

End project_properties.

(** * The theorems at sample inputs *)


(** C5 at a response that names [alice] twice as maintainer and once as
    bugowner: the two equal persons are one in the result. *)
Lemma search_for_maintainers_no_equal_persons_witness :
  NoDup ((λ p, (Person2.userid p, Person2.role p))
           <$> [alice_bugowner; alice; bob])
  ∧ NoDup ((λ p, (Person2.userid p, Person2.role p)) <$> []).
Proof.
  apply (@search_for_maintainers_no_equal_persons no_role two_roles_owners
           sample_osc None (Some "pkgA") None None []
           [ApiRequest (owner_search_request "pkgA" None); FetchGroup "grp1"]
           (PackageMaintainers.mk [alice_bugowner; alice; bob] [])).
  vm_compute. reflexivity.
Defined.

(** C5, as stated, fails at that response: the package list of the result
    has two elements with the user id of [alice], one for each role. *)
Lemma same_user_id_twice_in_package_list :
  @search_for_maintainers no_role two_roles_owners sample_osc None
    (Some "pkgA") None None []
  = ([ApiRequest (owner_search_request "pkgA" None); FetchGroup "grp1"],
     inr (PackageMaintainers.mk [alice_bugowner; alice; bob] []))
  ∧ Person2.userid alice_bugowner = Person2.userid alice
  ∧ ¬ NoDup (Person2.userid <$> [alice_bugowner; alice; bob]).
Proof.
  split_and!; [vm_compute; reflexivity|reflexivity|].
  intros Hnodup. apply NoDup_cons in Hnodup as [Hnotin _].
  apply Hnotin, list_elem_of_here.
Qed.

(** C10 at the sample service. *)
Lemma search_for_maintainers_pkg_ignored_witness :
  let req := owner_search_request "pkgA" None in
  let t1 := [] ++ [ApiRequest req] in
  @search_for_maintainers no_role pkgA_owners sample_osc
    (Some nameless_package) (Some "pkgA") None None []
  = @search_for_maintainers no_role pkgA_owners sample_osc None (Some "pkgA")
      None None []
  ∧ (∃ evs,
       (@search_for_maintainers no_role pkgA_owners sample_osc
          (Some nameless_package) (Some "pkgA") None None []).1
       = [] ++ ApiRequest req :: evs)
  ∧ (∀ resp owners,
       api_response sample_osc [] req = inr resp →
       @from_response _ pkgA_owners resp = inr owners →
       let fetches :=
         flat_map (expected_fetches "pkgA" (default [] None))
           (OwnerCollection.owner owners) in
       (∀ j g, fetches !! j = Some g →
          ∃ grp,
            group_response sample_osc (fetch_log t1 fetches j) g = inr grp) →
       ∃ t' r,
         @search_for_maintainers no_role pkgA_owners sample_osc
           (Some nameless_package) (Some "pkgA") None None []
         = (t', inr r))
  ∧ (∀ t' e,
       @search_for_maintainers no_role pkgA_owners sample_osc
         (Some nameless_package) (Some "pkgA") None None []
       = (t', inl e) →
       (∃ descr, api_response sample_osc [] req = inl descr
                 ∧ e = TransportError descr)
       ∨ (∃ resp, api_response sample_osc [] req = inr resp
                  ∧ @from_response OwnerCollection.t pkgA_owners resp = inl e)
       ∨ (∃ t'' g, group_response sample_osc t'' g = inl e)).
Proof.
  apply (@search_for_maintainers_pkg_ignored no_role pkgA_owners sample_osc
           nameless_package "pkgA" None None []).
  discriminate.
Defined.

(** C9 at the sample service: the call by package record. *)
Lemma search_for_maintainers_one_owner_search_witness :
  ∃ params evs,
    (@search_for_maintainers no_role pkgA_owners sample_osc (Some sample_package)
       None (Some ["maintainer"; "bugowner"]) None []).1
    = [] ++ ApiRequest (mkRequest "/search/owner" (Some "GET") (Some params)
                          None) :: evs
    ∧ params !! "package" = Some "pkgA"
    ∧ params !! "filter" = Some "maintainer,bugowner"
    ∧ (∀ k, k ≠ "package" → k ≠ "filter" → params !! k = None)
    ∧ Forall (λ ev, ∃ g, ev = FetchGroup g) evs.
Proof.
  apply (@search_for_maintainers_one_owner_search no_role pkgA_owners sample_osc
           (Some sample_package) None (Some ["maintainer"; "bugowner"]) None
           [] "pkgA").
  right. split; [reflexivity|]. exists sample_package. split; reflexivity.
Defined.

(** C9, as stated, fails for the call that supplies neither [pkg] nor
    [pkg_name]: it raises the assertion error and issues no request. *)
Lemma search_for_maintainers_without_package_asks_nothing :
  @search_for_maintainers no_role pkgA_owners sample_osc None None None None []
  = ([], inl (AssertionError "")).
Proof. reflexivity. Qed.

(** C2 at the sample service. *)
Lemma owner_record_scopes_witness :
  (∀ t' r,
     @search_for_maintainers no_role pkgA_owners sample_osc None (Some "pkgA") None
       None [] = (t', inr r) →
     ∀ owner, owner ∈ [owner_pkgA] →
       truthy (Owner.project owner) = true →
       (Owner.package owner = Some "pkgA" →
        Owner.person owner ⊆ PackageMaintainers.package r)
       ∧ (truthy (Owner.package owner) = false →
          Owner.person owner ⊆ PackageMaintainers.project r))
  ∧ ("pkgA" ≠ "" →
     (∀ owner pm jm t1 t2 pm' jm',
        @owner_step no_role sample_osc "pkgA" [] (pm, jm) owner t1
          = (t2, inr (pm', jm')) →
        (pm' = pm ∨ jm' = jm)
        ∧ (truthy (Owner.project owner) = true →
           truthy (Owner.package owner) = false →
           pm' = pm
           ∧ ∃ members,
               @fetch_group_members no_role sample_osc [] owner t1 = (t2, inr members)
               ∧ jm' = jm ++ Owner.person owner ++ members))
     ∧ (∀ t' r,
          @search_for_maintainers no_role pkgA_owners sample_osc None (Some "pkgA")
            None None [] = (t', inr r) →
          (∀ owner, owner ∈ [owner_pkgA] →
             truthy (Owner.package owner) = false) →
          PackageMaintainers.package r = [])).
Proof.
  apply (@owner_record_scopes no_role pkgA_owners sample_osc None (Some "pkgA") None
           None [] "pkgA" (RawBytes "") (OwnerCollection.mk [owner_pkgA]));
    reflexivity.
Defined.

(** C2, as stated, fails when the queried name is empty: the one owner
    record of the response has a project and an empty package field, and
    its person is in the package list as well as in the project list. *)
Lemma empty_name_owner_in_both_scopes :
  truthy (Owner.project owner_empty_package) = true
  ∧ truthy (Owner.package owner_empty_package) = false
  ∧ @owner_step no_role sample_osc "" [] ([], []) owner_empty_package []
    = ([], inr ([alice], [alice]))
  ∧ @search_for_maintainers no_role empty_package_owners sample_osc
      (Some nameless_package) None None None []
    = ([ApiRequest (owner_search_request "" None)],
       inr (PackageMaintainers.mk [alice] [alice])).
Proof. split_and!; vm_compute; reflexivity. Qed.

(** C3 at a sample input: [prj_name] with [pkg_name] and no document. *)
Lemma send_meta_no_target_fails_witness :
  @send_meta sample_project_doc tag sample_osc None (Some "home:x") None None
    (Some "pkgA") None []
  = ([], inl (AssertionError "Invalid parameter combination"))
  ∧ ∀ descr,
      AssertionError "Invalid parameter combination" ≠ TransportError descr.
Proof.
  apply (@send_meta_no_target_fails sample_project_doc tag sample_osc
           (Some "home:x") None None (Some "pkgA") None []); reflexivity.
Defined.

(** C3, as stated, fails for [prj] supplied together with [prj_name],
    which is none of the four target shapes: the call does not fail, it
    sends the document of [prj]. *)
Lemma send_meta_accepts_more_than_a_target :
  four_target_shapes (Some sample_project) (Some "home:y") None None None None
    = false
  ∧ @send_meta sample_project_doc tag sample_osc (Some sample_project)
      (Some "home:y") None None None None []
    = ([ApiRequest (mkRequest "/source/home:x/_meta" (Some "PUT") None
                      (Some "doc"))],
       inr ()).
Proof. split; reflexivity. Qed.

(** C8, as stated, fails for a project alone: the path of the request is
    [/source/home:x/], not [/source/home:x]. *)
Lemma delete_project_path_ends_in_slash :
  delete sample_osc (inr "home:x") None false []
  = ([ApiRequest (mkRequest "/source/home:x/" (Some "DELETE") None None)],
     inr ())
  ∧ ¬ ∃ req,
        ApiRequest req ∈ (delete sample_osc (inr "home:x") None false []).1
        ∧ route req = "/source/home:x".
Proof.
  split; [reflexivity|].
  intros (req & Hin & Hroute).
  apply list_elem_of_singleton in Hin. injection Hin as ->.
  discriminate Hroute.
Qed.

(** C8's scenario: [delete(osc, "home:x", "pkgA", force=True)] issues
    [DELETE /source/home:x/pkgA] with [force=1]. *)
Lemma delete_scenario :
  delete sample_osc (inr "home:x") (Some (inr "pkgA")) true []
  = ([ApiRequest (mkRequest "/source/home:x/pkgA" (Some "DELETE")
                    (Some {[ "force" := "1" ]}) None)],
     inr ()).
Proof. reflexivity. Qed.

(** C4: the listing entry of an empty file has its name, md5, size and
    mtime, yet [fetch_file_list] returns no [File] for it. *)
Theorem fetch_file_list_drops_empty_file :
  _Directory.Entry.name empty_file_entry = Some "empty.txt"
  ∧ _Directory.Entry.md5 empty_file_entry
      = Some "d41d8cd98f00b204e9800998ecf8427e"
  ∧ _Directory.Entry.size empty_file_entry = Some 0
  ∧ _Directory.Entry.mtime empty_file_entry = Some 100
  ∧ @fetch_file_list empty_file_listing sample_osc (inr "home:x")
      (inr "pkgA") []
    = ([ApiRequest (mkRequest "/source/home:x/pkgA" None None None)],
       inr []).
Proof. split_and!; reflexivity. Qed.

(** C6 at the sample service, with [grp1] ignored. *)
Lemma ignored_group_contributes_nothing_witness :
  (∃ evs,
     (@search_for_maintainers no_role pkgA_owners sample_osc None (Some "pkgA") None
        (Some ["grp1"]) []).1 = [] ++ evs
     ∧ FetchGroup "grp1" ∉ evs)
  ∧ @search_for_maintainers no_role
      (parsed_through (without_group_refs "grp1") pkgA_owners)
      sample_osc None (Some "pkgA") None (Some ["grp1"]) []
    = @search_for_maintainers no_role pkgA_owners sample_osc None (Some "pkgA") None
        (Some ["grp1"]) [].
Proof.
  apply (@ignored_group_contributes_nothing no_role pkgA_owners sample_osc None
           (Some "pkgA") None (Some ["grp1"]) [] "grp1").
  simpl. apply list_elem_of_here.
Defined.



(** * The further theorems at sample inputs *)

(** X2 at the sample project and package. *)
Lemma send_meta_records_or_names_witness :
  ("pkgA" ≠ "" →
   @send_meta titled_project_doc tag sample_osc (Some sample_project) None
     None (Some sample_package) None None []
   = @send_meta titled_project_doc tag sample_osc None (Some "home:x") None
       None (Some "pkgA") (Some (Package.meta sample_package)) [])
  ∧ (truthy (@meta _ titled_project_doc sample_project) = true →
     @send_meta titled_project_doc tag sample_osc (Some sample_project) None
       None None None None []
     = @send_meta titled_project_doc tag sample_osc None (Some "home:x")
         (Some (@meta _ titled_project_doc sample_project)) None None None []).
Proof.
  apply (@send_meta_records_or_names titled_project_doc tag sample_osc
           sample_project sample_package []).
  discriminate.
Defined.

(** X3 at a document without children. *)
Lemma send_meta_childless_document_witness :
  @send_meta sample_project_doc tag sample_osc None (Some "home:x") None None
    (Some "pkgA") (Some childless_doc) []
  = @send_meta sample_project_doc tag sample_osc None (Some "home:x") None
      None (Some "pkgA") None []
  ∧ @send_meta sample_project_doc tag sample_osc None (Some "home:x") None
      None (Some "pkgA") (Some childless_doc) []
    = ([], inl (AssertionError "Invalid parameter combination")).
Proof.
  apply (@send_meta_childless_document sample_project_doc tag sample_osc None
           (Some "home:x") None None (Some "pkgA") childless_doc []).
  reflexivity.
Defined.

(** X6 at a listing of three entries, of which one is complete. *)
Lemma fetch_file_list_files_witness :
  ∃ files,
    (@fetch_file_list sample_listing sample_osc (inr "home:x") (inr "pkgA")
       []).2 = inr files
    ∧ ∀ f, f ∈ files ↔
        (∃ entry,
           entry ∈ [partial_entry; readme_entry; empty_file_entry]
           ∧ entry_of_file entry f)
        ∧ File.name f ≠ "" ∧ File.md5_sum f ≠ ""
        ∧ File.size f ≠ 0 ∧ File.mtime f ≠ 0.
Proof.
  apply (@fetch_file_list_files sample_listing sample_osc (inr "home:x")
           (inr "pkgA") [] (RawBytes "")
           (listing_of [partial_entry; readme_entry; empty_file_entry]));
    reflexivity.
Defined.

(** X7 at the same listing. *)
Lemma fetch_file_list_order_witness :
  sublist (File.name <$> [File.mk "README" "abc123" 10 100])
          (omap _Directory.Entry.name
             [partial_entry; readme_entry; empty_file_entry])
  ∧ (length [File.mk "README" "abc123" 10 100]
     ≤ length [partial_entry; readme_entry; empty_file_entry])%nat.
Proof.
  apply (@fetch_file_list_order sample_listing sample_osc (inr "home:x")
           (inr "pkgA") []
           [ApiRequest (mkRequest "/source/home:x/pkgA" None None None)]
           [File.mk "README" "abc123" 10 100] (RawBytes "")
           (listing_of [partial_entry; readme_entry; empty_file_entry]));
    reflexivity.
Defined.

(** X8 at a service that is down. *)
Lemma search_for_maintainers_owner_search_fails_witness :
  let req := owner_search_request "pkgA" None in
  (∀ descr, api_response failing_osc [] req = inl descr →
     @search_for_maintainers no_role pkgA_owners failing_osc None (Some "pkgA") None
       None []
     = ([] ++ [ApiRequest req], inl (TransportError descr)))
  ∧ (∀ resp e, api_response failing_osc [] req = inr resp →
       @from_response OwnerCollection.t pkgA_owners resp = inl e →
       @search_for_maintainers no_role pkgA_owners failing_osc None (Some "pkgA")
         None None []
       = ([] ++ [ApiRequest req], inl e)).
Proof.
  apply (@search_for_maintainers_owner_search_fails no_role pkgA_owners failing_osc
           None (Some "pkgA") None None [] "pkgA").
  reflexivity.
Defined.

(** X9 at the sample package. *)
Lemma search_for_maintainers_record_or_name_witness :
  @search_for_maintainers no_role pkgA_owners sample_osc (Some sample_package) None
    None None []
  = @search_for_maintainers no_role pkgA_owners sample_osc None (Some "pkgA") None
      None []
  ∧ @search_for_maintainers no_role pkgA_owners sample_osc (Some sample_package)
      (Some "") None None []
    = @search_for_maintainers no_role pkgA_owners sample_osc (Some sample_package)
        None None None [].
Proof.
  apply (@search_for_maintainers_record_or_name no_role pkgA_owners sample_osc
           sample_package None None []).
  discriminate.
Defined.

(** X11 at a response of three owner records, of which one counts. *)
Lemma search_for_maintainers_sound_witness :
  let t1 := [] ++ [ApiRequest (owner_search_request "pkgA" None)] in
  let fetches_for := flat_map (expected_fetches "pkgA" (default [] None)) in
  (∀ p, p ∈ [alice; bob] →
     ∃ pre owner post,
       [owner_other_package; owner_pkgA; owner_no_project]
       = pre ++ owner :: post
       ∧ truthy (Owner.project owner) = true
       ∧ Owner.package owner = Some "pkgA"
       ∧ @named_at no_role sample_osc (default [] None) owner
           (t1 ++ (FetchGroup <$> fetches_for pre)) p)
  ∧ (∀ p, p ∈ [] →
       ∃ pre owner post,
         [owner_other_package; owner_pkgA; owner_no_project]
         = pre ++ owner :: post
         ∧ truthy (Owner.project owner) = true
         ∧ truthy (Owner.package owner) = false
         ∧ @named_at no_role sample_osc (default [] None) owner
             (t1 ++ (FetchGroup <$>
                fetches_for pre
                ++ (if in_package_scope "pkgA" owner
                    then wanted_groups (default [] None) owner else [])))
             p).
Proof.
  apply (@search_for_maintainers_sound no_role mixed_owners sample_osc None
           (Some "pkgA") None None []
           [ApiRequest (owner_search_request "pkgA" None); FetchGroup "grp1"]
           (PackageMaintainers.mk [alice; bob] []) "pkgA" (RawBytes "")
           (OwnerCollection.mk
              [owner_other_package; owner_pkgA; owner_no_project]));
    vm_compute; reflexivity.
Defined.

(** X12 at the same response. *)
Lemma search_for_maintainers_skips_irrelevant_witness :
  @search_for_maintainers no_role (parsed_through (only_relevant "pkgA") mixed_owners)
      sample_osc None (Some "pkgA") None None []
    = @search_for_maintainers no_role mixed_owners sample_osc None (Some "pkgA") None
        None []
  ∧ ∀ owner,
      relevant "pkgA" owner = false ↔
        truthy (Owner.project owner) = false
        ∨ (truthy (Owner.package owner) = true
           ∧ Owner.package owner ≠ Some "pkgA").
Proof.
  apply (@search_for_maintainers_skips_irrelevant no_role mixed_owners sample_osc
           None (Some "pkgA") None None [] "pkgA").
  reflexivity.
Defined.

(** X13 at the same response. *)
Lemma search_for_maintainers_log_witness :
  ∃ names,
    (@search_for_maintainers no_role mixed_owners sample_osc None (Some "pkgA") None
       None []).1
    = [] ++ ApiRequest (owner_search_request "pkgA" None)
              :: (FetchGroup <$> names)
    ∧ names `prefix_of`
        flat_map (expected_fetches "pkgA" [])
          [owner_other_package; owner_pkgA; owner_no_project]
    ∧ (∀ r,
         (@search_for_maintainers no_role mixed_owners sample_osc None (Some "pkgA")
            None None []).2 = inr r →
         names = flat_map (expected_fetches "pkgA" [])
                   [owner_other_package; owner_pkgA; owner_no_project]).
Proof.
  apply (@search_for_maintainers_log no_role mixed_owners sample_osc None
           (Some "pkgA") None None [] "pkgA" (RawBytes "")
           (OwnerCollection.mk
              [owner_other_package; owner_pkgA; owner_no_project]));
    reflexivity.
Defined.

(** X14 at the same response, the group [grp1] and its maintainer. *)
Lemma search_for_maintainers_group_members_witness :
  (Owner.package owner_pkgA = Some "pkgA" →
   @Person2_of_userid no_role "bob" ∈ [alice; bob])
  ∧ (truthy (Owner.package owner_pkgA) = false →
     @Person2_of_userid no_role "bob" ∈ []).
Proof.
  apply (λ H1 H2 H3 H4 H5 H6 H7 H8 H9,
           @search_for_maintainers_group_members no_role mixed_owners sample_osc None
             (Some "pkgA") None None []
             [ApiRequest (owner_search_request "pkgA" None);
              FetchGroup "grp1"]
             (PackageMaintainers.mk [alice; bob] []) "pkgA" (RawBytes "")
             (OwnerCollection.mk
                [owner_other_package; owner_pkgA; owner_no_project])
             owner_pkgA (Group.mk "grp1") grp1 H1 H2 H3 H4 H5 H6 H7 H8 H9
             (Person.mk "bob" "maintainer")).
  - reflexivity.
  - reflexivity.
  - reflexivity.
  - vm_compute. reflexivity.
  - apply list_elem_of_further, list_elem_of_here.
  - reflexivity.
  - apply list_elem_of_here.
  - apply not_elem_of_nil.
  - intros t''. reflexivity.
  - left. apply list_elem_of_here.
Defined.
